(** * GoLite storage engine: LSM tree, write-ahead log and paged B-tree

    A shallow embedding of the key-value layer of [sukryu/golite]:
    - [pkg/adapters/lsmtree]: memtable, block cache, SSTable files, WAL,
      recovery, flush and leveled compaction;
    - [pkg/adapters/btree]: the disk-based B-tree with its LRU node cache.

    Go strings are byte strings and are modelled by [string]; file contents
    are [list ascii]; Go maps are [gmap]s; the file system is a [gmap] from
    paths to file contents.  Fixed-width integers are [Z] with the wrap-around
    of the Go type written out where the code computes with them. *)

From Stdlib Require Import ZArith Ascii String List Lia.
From stdpp Require Import gmap strings list pretty sorting.

Open Scope Z_scope.

(** ** Errors and results *)

Inductive error : Type :=
| EOF                      (* io.EOF *)
| ErrUnexpectedEOF         (* io.ErrUnexpectedEOF *)
| ErrNotExist              (* os.Open on a missing path *)
| ErrInvalidSeek           (* File.Seek to a negative position *)
| ErrKeyNotFound           (* lsmtree.ErrKeyNotFound / ports.ErrKeyNotFound *)
| ErrMemTableFull          (* lsmtree.ErrMemTableFull *)
| ErrSSTableCorrupted     (* lsmtree.ErrSSTableCorrupted *)
| Errorf (msg : string)    (* fmt.Errorf(msg, ...) *)
| Panic (msg : string)     (* a Go run-time panic *)
| OutOfFuel.               (* the model's recursion bound was reached *)

Inductive result (A : Type) : Type :=
| Ok (a : A)
| Err (e : error).
Arguments Ok {A} a.
Arguments Err {A} e.

Global Instance error_eq_dec : EqDecision error.
Proof. solve_decision. Defined.
Global Instance result_eq_dec {A} `{EqDecision A} : EqDecision (result A).
Proof. solve_decision. Defined.

Definition is_ok {A} (r : result A) : bool :=
  match r with Ok _ => true | Err _ => false end.

(** [if err != nil { return err }] chains, written [x ← m; k]. *)
Global Instance result_bind : MBind result := λ A B k m,
  match m with Ok a => k a | Err e => Err e end.
Global Instance result_ret : MRet result := λ A a, Ok a.

(** ** Bytes, strings and fixed-width integers *)

Definition byte_of_Z (z : Z) : ascii := ascii_of_N (Z.to_N (z mod 256)).
Definition Z_of_byte (b : ascii) : Z := Z.of_N (N_of_ascii b).

(** [[]byte(s)] and [string(bs)]. *)
Definition bytes_of_string (s : string) : list ascii := list_ascii_of_string s.
Definition string_of_bytes (bs : list ascii) : string := string_of_list_ascii bs.

(** [len(s)] as a Go [int]. *)
Definition len (s : string) : Z := Z.of_nat (String.length s).

Definition wrap_int64 (z : Z) : Z := (z + 2^63) mod 2^64 - 2^63.
Definition max_int64 : Z := 2^63 - 1.
Definition to_uint16 (z : Z) : Z := z mod 65536.
Definition to_uint32 (z : Z) : Z := z mod 2^32.

(** [binary.Write(buf, binary.BigEndian, uint16)] and its inverse. *)
Definition put_u16_be (n : Z) : list ascii :=
  [byte_of_Z (n / 256); byte_of_Z n].
Definition get_u16_be (b1 b0 : ascii) : Z := Z_of_byte b1 * 256 + Z_of_byte b0.

(** [binary.Write(w, binary.BigEndian, uint32)]. *)
Definition put_u32_be (n : Z) : list ascii :=
  [byte_of_Z (n / 2^24); byte_of_Z (n / 2^16); byte_of_Z (n / 2^8); byte_of_Z n].
Definition get_u32_be (b3 b2 b1 b0 : ascii) : Z :=
  ((Z_of_byte b3 * 256 + Z_of_byte b2) * 256 + Z_of_byte b1) * 256 + Z_of_byte b0.

(** Go compares strings byte-wise; [String.ltb] is that order. *)
Definition str_lt (a b : string) : bool := String.ltb a b.
Definition str_le (a b : string) : bool := negb (String.ltb b a).
Definition str_eqb (a b : string) : bool := bool_decide (a = b).

(** ** hash/crc32 (IEEE) and hash/fnv (32-bit FNV-1a) of the Go library *)

Definition crc_poly : Z := 0xEDB88320.

Definition crc_bit (c : Z) : Z :=
  if Z.testbit c 0 then Z.lxor (Z.shiftr c 1) crc_poly else Z.shiftr c 1.

(** [simplePopulateTable]: entry [i] of the IEEE table. *)
Definition crc_table (i : Z) : Z := Nat.iter 8 crc_bit i.

(** One round of [simpleUpdate] on the complemented register. *)
Definition crc_step (crc : Z) (v : ascii) : Z :=
  Z.lxor (crc_table (Z.lxor (Z.land crc 255) (Z_of_byte v))) (Z.shiftr crc 8).

(** [crc32.Update(crc, crc32.IEEETable, p)]. *)
Definition crc32_Update (crc : Z) (p : list ascii) : Z :=
  Z.lxor (fold_left crc_step p (Z.lxor crc 0xFFFFFFFF)) 0xFFFFFFFF.

Definition ChecksumIEEE (data : list ascii) : Z := crc32_Update 0 data.

(** [ComputeChecksum] of util.go. *)
Definition ComputeChecksum (data : list ascii) : Z := ChecksumIEEE data.

Definition fnv_offset32 : Z := 2166136261.
Definition fnv_prime32 : Z := 16777619.

(** [fnv.New32a(); h.Write(p); h.Sum32()]. *)
Definition fnv32a (p : list ascii) : Z :=
  fold_left (fun h c => to_uint32 (Z.lxor h (Z_of_byte c) * fnv_prime32)) p fnv_offset32.

(** ** sort.Strings, sort.Slice and sort.Search

    [insertion_sort] is Go's [insertionSortLessFunc], the procedure
    [sort.Slice] and [sort.Strings] run on a slice of at most twelve
    elements: element [i] moves left while it is less than its left
    neighbour.  On longer slices Go's pdqsort returns the same slice
    whenever no two elements are equivalent under [less]. *)

Section Sorting.
Context {A : Type} (less : A → A → bool).

(** [pre] is the sorted prefix in reverse (nearest neighbour first). *)
Fixpoint sift_left (x : A) (rev_pre : list A) (moved : list A) : list A :=
  match rev_pre with
  | [] => x :: moved
  | y :: rest =>
      if less x y then sift_left x rest (y :: moved)
      else rev_append rev_pre (x :: moved)
  end.

Definition insertion_sort (l : list A) : list A :=
  fold_left (fun pre x => sift_left x (rev pre) []) l [].

(** [sort.Search(n, f)]: the binary search of the Go library, with the
    loop [for i < j] unrolled [fuel] times. *)
Fixpoint search_loop (fuel : nat) (f : Z → bool) (i j : Z) : Z :=
  match fuel with
  | O => i
  | S fuel' =>
      if i <? j then
        let h := Z.shiftr (i + j) 1 in
        if negb (f h) then search_loop fuel' f (h + 1) j
        else search_loop fuel' f i h
      else i
  end.
End Sorting.

Definition sort_Search (n : Z) (f : Z → bool) : Z :=
  search_loop (S (Z.to_nat n)) f 0 n.

Definition sort_Strings (keys : list string) : list string :=
  insertion_sort str_lt keys.

(** ** The file system and sequential file readers *)

(** Paths to file contents.  I/O failures of the operating system other
    than a missing file or a short read are outside the model. *)
Abbreviation FS := (gmap string (list ascii)).

(** An open [*os.File] being read: the bytes after the cursor and the
    cursor position. *)
Record File := mkFile { rest : list ascii; fpos : Z }.

(** [os.Open(path)]. *)
Definition os_Open (fs : FS) (path : string) : result File :=
  match fs !! path with
  | Some content => Ok (mkFile content 0)
  | None => Err ErrNotExist
  end.

(** [fi.Size()] of [file.Stat()]. *)
Definition file_size (fs : FS) (path : string) : Z :=
  match fs !! path with
  | Some content => Z.of_nat (length content)
  | None => 0
  end.

(** [file.Seek(pos, io.SeekStart)] on a freshly opened file. *)
Definition Seek_start (f : File) (pos : Z) : result File :=
  if pos <? 0 then Err ErrInvalidSeek
  else Ok (mkFile (drop (Z.to_nat pos) (rest f)) (fpos f + pos)).

(** [io.ReadFull(file, buf)] with [len(buf) = n]: no read is attempted for
    an empty buffer; [io.EOF] when nothing is left and
    [io.ErrUnexpectedEOF] on a short read. *)
Definition ReadFull (f : File) (n : Z) : result (list ascii * File) :=
  if n <=? 0 then Ok ([], f)
  else match rest f with
       | [] => Err EOF
       | _ =>
           if Z.of_nat (length (rest f)) <? n then Err ErrUnexpectedEOF
           else Ok (take (Z.to_nat n) (rest f),
                    mkFile (drop (Z.to_nat n) (rest f)) (fpos f + n))
       end.

(** [binary.Read(file, binary.BigEndian, &x)] for [x uint16]. *)
Definition Read_u16_be (f : File) : result (Z * File) :=
  match rest f with
  | [] => Err EOF
  | [_] => Err ErrUnexpectedEOF
  | b1 :: b0 :: tl => Ok (get_u16_be b1 b0, mkFile tl (fpos f + 2))
  end.

(** [binary.Read(file, binary.BigEndian, &x)] for [x uint32]. *)
Definition Read_u32_be (f : File) : result (Z * File) :=
  match rest f with
  | [] => Err EOF
  | b3 :: b2 :: b1 :: b0 :: tl => Ok (get_u32_be b3 b2 b1 b0, mkFile tl (fpos f + 4))
  | _ => Err ErrUnexpectedEOF
  end.

(** [file.Read(buf[:])] with a one-byte buffer. *)
Definition Read_byte (f : File) : result (ascii * File) :=
  match rest f with
  | [] => Err EOF
  | b :: tl => Ok (b, mkFile tl (fpos f + 1))
  end.

Module LSM.

(** *** Configuration (config.go): the options the modelled code reads *)
Record Config := mkConfig {
  FilePath : string;
  MemTableSize : Z;
  CacheSize : Z;
  UseBloomFilter : bool;
  CompressionType : string;
  SyncWrites : bool
}.

(** *** MemTable (memtable.go) *)

Definition tombstone : string := "<TOMBSTONE>".

Record MemTable := mkMemTable {
  table : gmap string string;   (* sync.Map *)
  size : Z;                     (* int64 *)
  maxSize : Z                   (* int64 *)
}.

Definition NewMemTable (maxSize : Z) : MemTable :=
  mkMemTable ∅ 0 (wrap_int64 maxSize).

Module MemTable_.

Definition Insert (m : MemTable) (key value : string) : result unit * MemTable :=
  let addSize := wrap_int64 (len key + len value) in
  let currentSize := size m in
  if wrap_int64 (currentSize + addSize) >? maxSize m then (Err ErrMemTableFull, m)
  else (Ok tt,
        mkMemTable (<[key := value]> (table m))
                   (wrap_int64 (size m + addSize)) (maxSize m)).

Definition Get (m : MemTable) (key : string) : string * bool :=
  match table m !! key with
  | None => (EmptyString, false)
  | Some val => if str_eqb val tombstone then (EmptyString, false) else (val, true)
  end.

Definition Delete (m : MemTable) (key : string) : result unit * MemTable :=
  (Ok tt, mkMemTable (<[key := tombstone]> (table m)) (size m) (maxSize m)).

Definition Dump (m : MemTable) : gmap string string :=
  filter (fun kv => kv.2 ≠ tombstone) (table m).

Definition Reset (m : MemTable) : MemTable := mkMemTable ∅ 0 (maxSize m).

Definition Size (m : MemTable) : Z := size m.

(** The snapshot of the live entries and the emptied table. *)
Definition Swap (m : MemTable) : gmap string string * MemTable :=
  let data := filter (fun kv => kv.2 ≠ tombstone) (table m) in
  (data, mkMemTable ∅ 0 (maxSize m)).

End MemTable_.

(** *** Block cache (an LRU list, most recently used first)

    The Go cache keeps [items map[string]*list.Element] as an index into
    [order]; every key has at most one element, so the list alone carries
    the state. *)

Record cacheEntry := mkEntry { ce_key : string; ce_value : string }.

Record Cache := mkCache {
  capacity : Z;
  order : list cacheEntry
}.

Definition NewCache (capacity : Z) : Cache :=
  mkCache (Z.quot capacity 64) [].

Module Cache_.

Definition lookup (c : Cache) (key : string) : option cacheEntry :=
  List.find (fun e => str_eqb (ce_key e) key) (order c).

Definition without (key : string) (l : list cacheEntry) : list cacheEntry :=
  List.filter (fun e => negb (str_eqb (ce_key e) key)) l.

Definition Get (c : Cache) (key : string) : (string * bool) * Cache :=
  match lookup c key with
  | Some e => ((ce_value e, true), mkCache (capacity c) (e :: without key (order c)))
  | None => ((EmptyString, false), c)
  end.

Definition Put (c : Cache) (key value : string) : Cache :=
  match lookup c key with
  | Some e => mkCache (capacity c) (mkEntry key value :: without key (order c))
  | None =>
      let order' := mkEntry key value :: order c in
      if Z.of_nat (length order') >? capacity c
      then mkCache (capacity c) (removelast order')
      else mkCache (capacity c) order'
  end.

End Cache_.

(** *** Metrics *)
Record Metrics := mkMetrics { Writes : Z; Reads : Z; CacheHits : Z }.
Definition NewMetrics : Metrics := mkMetrics 0 0 0.
Definition IncWrites (m : Metrics) := mkMetrics (wrap_int64 (Writes m + 1)) (Reads m) (CacheHits m).
Definition IncReads (m : Metrics) := mkMetrics (Writes m) (wrap_int64 (Reads m + 1)) (CacheHits m).
Definition IncCacheHit (m : Metrics) := mkMetrics (Writes m) (Reads m) (wrap_int64 (CacheHits m + 1)).

(** *** Bloom filter *)
Record BloomFilter := mkBloom { bitset : list bool; bf_size : Z }.

Definition NewBloomFilter (size : Z) : BloomFilter :=
  mkBloom (replicate (Z.to_nat size) false) size.

Module BloomFilter_.

Definition getHashes (bf : BloomFilter) (key : string) : list Z :=
  let hashVal := fnv32a (bytes_of_string key) in
  [hashVal mod bf_size bf; Z.shiftr hashVal 16 mod bf_size bf].

Definition Add (bf : BloomFilter) (key : string) : BloomFilter :=
  fold_left (fun b idx => mkBloom (<[Z.to_nat idx := true]> (bitset b)) (bf_size b))
            (getHashes bf key) bf.

Definition MightContain (bf : BloomFilter) (key : string) : bool :=
  forallb (fun idx => default false (bitset bf !! Z.to_nat idx)) (getHashes bf key).

End BloomFilter_.

(** The loop [for k := range m { bf.Add(k) }] over the keys of a map. *)
Definition bloom_of_keys (keys : gset string) : BloomFilter :=
  fold_left BloomFilter_.Add (elements keys) (NewBloomFilter 1000).


(** *** SSTable (sstable.go) *)

Record SSTable := mkSSTable {
  filePath : string;
  minKey : string;
  maxKey : string;
  sst_size : Z;                 (* int64 *)
  index : gmap string Z;        (* key -> file offset *)
  Bloom : option BloomFilter;
  checksum : Z                  (* uint32 *)
}.

Global Instance BloomFilter_eq_dec : EqDecision BloomFilter.
Proof. solve_decision. Defined.
Global Instance SSTable_eq_dec : EqDecision SSTable.
Proof. solve_decision. Defined.

(** The record [[KeyLen][Key][ValLen][Value]] built in [buf]. *)
Definition entry_bytes (keyLen : Z) (key : list ascii) (valLen : Z) (value : list ascii)
  : list ascii :=
  put_u16_be keyLen ++ key ++ put_u16_be valLen ++ value.

(** The variables of the writing loop of [CreateSSTable]. *)
Record writer := mkWriter {
  w_index : gmap string Z;
  w_minKey : string;
  w_maxKey : string;
  w_offset : Z;
  w_hasher : Z;                 (* crc32.NewIEEE() *)
  w_file : list ascii           (* what [file.Write] has written so far *)
}.

Definition write_entry (data : gmap string string) (i : Z) (key : string) (w : writer)
  : writer :=
  let value := default EmptyString (data !! key) in
  let minKey := if i =? 0 then key else w_minKey w in
  let keyLen := to_uint16 (len key) in
  let valLen := to_uint16 (len value) in
  let entryBytes := entry_bytes keyLen (bytes_of_string key) valLen (bytes_of_string value) in
  let n := Z.of_nat (length entryBytes) in
  mkWriter (<[key := w_offset w]> (w_index w)) minKey key
           (w_offset w + n) (crc32_Update (w_hasher w) entryBytes)
           (w_file w ++ entryBytes).

(** [for i, key := range keys { ... }]. *)
Fixpoint write_entries (data : gmap string string) (i : Z) (keys : list string)
    (w : writer) : writer :=
  match keys with
  | [] => w
  | key :: keys' => write_entries data (i + 1) keys' (write_entry data i key w)
  end.

Definition bloom_if (useBloom : bool) (keys : gset string) : option BloomFilter :=
  if useBloom then Some (bloom_of_keys keys) else None.

Definition CreateSSTable (fs : FS) (path : string) (data : gmap string string)
    (compressionType : string) (useBloom : bool) : result SSTable * FS :=
  let keys := sort_Strings (elements (dom data)) in
  let w := write_entries data 0 keys (mkWriter ∅ EmptyString EmptyString 0 0 []) in
  let checksum := w_hasher w in
  let fs' := <[path := w_file w ++ put_u32_be checksum]> fs in
  (Ok (mkSSTable path (w_minKey w) (w_maxKey w) (w_offset w) (w_index w)
                 (bloom_if useBloom (dom data)) checksum), fs').

(** The variables of the scanning loop of [OpenSSTable]. *)
Record scanner := mkScanner {
  s_index : gmap string Z;
  s_minKey : string;
  s_maxKey : string;
  s_offset : Z;
  s_hasher : Z
}.

(** One record read by the loop body. *)
Definition scan_entry (f : File) (s : scanner) : result (File * scanner) :=
  '(keyLen, f1) ← Read_u16_be f;
  '(keyBytes, f2) ← ReadFull f1 keyLen;
  let key := string_of_bytes keyBytes in
  '(valLen, f3) ← Read_u16_be f2;
  '(valBytes, f4) ← ReadFull f3 valLen;
  let entryBytes := entry_bytes keyLen keyBytes valLen valBytes in
  let minKey := if s_offset s =? 0 then key else s_minKey s in
  Ok (f4, mkScanner (<[key := s_offset s]> (s_index s)) minKey key
                    (s_offset s + Z.of_nat (length entryBytes))
                    (crc32_Update (s_hasher s) entryBytes)).

(** [for { currentOffset := ...; if currentOffset >= dataEnd { break } ... }];
    every round consumes at least four bytes, so [fuel] beyond the file
    length is never used up. *)
Fixpoint scan_entries (fuel : nat) (dataEnd : Z) (f : File) (s : scanner)
  : result (File * scanner) :=
  match fuel with
  | O => Err OutOfFuel
  | S fuel' =>
      let currentOffset := fpos f in
      if currentOffset >=? dataEnd then Ok (f, s)
      else '(f', s') ← scan_entry f s; scan_entries fuel' dataEnd f' s'
  end.

Definition OpenSSTable (fs : FS) (path : string) (useBloom : bool) : result SSTable :=
  file ← os_Open fs path;
  let fileSize := file_size fs path in
  let dataEnd := fileSize - 4 in
  '(file', s) ← scan_entries (S (length (rest file))) dataEnd file
                             (mkScanner ∅ EmptyString EmptyString 0 0);
  '(fileChecksum, _) ← Read_u32_be file';
  let computedChecksum := s_hasher s in
  if negb (computedChecksum =? fileChecksum) then Err ErrSSTableCorrupted
  else Ok (mkSSTable path (s_minKey s) (s_maxKey s) (s_offset s) (s_index s)
                     (bloom_if useBloom (dom (s_index s))) fileChecksum).

Module SSTable_.

Definition read_value (fs : FS) (s : SSTable) (pos : Z) : result string :=
  file ← os_Open fs (filePath s);
  file ← Seek_start file pos;
  '(keyLen, file) ← Read_u16_be file;
  '(keyBytes, file) ← ReadFull file keyLen;
  '(valLen, file) ← Read_u16_be file;
  '(valBytes, file) ← ReadFull file valLen;
  Ok (string_of_bytes valBytes).

Definition Get (fs : FS) (s : SSTable) (key : string) : string * bool :=
  match index s !! key with
  | None => (EmptyString, false)
  | Some pos =>
      match read_value fs s pos with
      | Ok v => (v, true)
      | Err _ => (EmptyString, false)
      end
  end.

End SSTable_.


(** *** Write-ahead log (wal.go)

    [walCh] is the buffered channel between [Append] and the single worker
    goroutine; one call of [worker_step] is one round of the worker's loop. *)

Record WalEntry := mkWalEntry {
  Op : Z;                       (* byte: 0x00 insert, 0x01 delete *)
  Key : string;
  Value : string
}.

Record WAL := mkWAL {
  wal_path : string;            (* the name of [file] *)
  syncWrites : bool;
  walCh : list WalEntry;
  entryCount : Z                (* int64 *)
}.

Module WAL_.

(** The buffer the worker fills for one entry. *)
Definition record_bytes (entry : WalEntry) : list ascii :=
  [byte_of_Z (Op entry)]
  ++ put_u16_be (to_uint16 (len (Key entry))) ++ bytes_of_string (Key entry)
  ++ put_u16_be (to_uint16 (len (Value entry))) ++ bytes_of_string (Value entry).

(** [w.file.Write(buf.Bytes())] on the append-only log file. *)
Definition file_Write (fs : FS) (path : string) (bs : list ascii) : FS :=
  <[path := default [] (fs !! path) ++ bs]> fs.

Definition NewWAL (fs : FS) (path : string) (syncWrites : bool) : WAL * FS :=
  (mkWAL path syncWrites [] 0, <[path := default [] (fs !! path)]> fs).

Definition Append (w : WAL) (entry : WalEntry) : result unit * WAL :=
  (Ok tt, mkWAL (wal_path w) (syncWrites w) (walCh w ++ [entry])
                (wrap_int64 (entryCount w + 1))).

Definition worker_step (fs : FS) (w : WAL) : FS * WAL :=
  match walCh w with
  | [] => (fs, w)
  | entry :: ch =>
      (file_Write fs (wal_path w) (record_bytes entry),
       mkWAL (wal_path w) (syncWrites w) ch (entryCount w))
  end.

(** [Flush] returns once the worker has emptied the channel; the worker's
    write of the last entry it took is modelled as done by then. *)
Definition Flush (fs : FS) (w : WAL) : FS * WAL :=
  (fold_left (fun fs entry => file_Write fs (wal_path w) (record_bytes entry)) (walCh w) fs,
   mkWAL (wal_path w) (syncWrites w) [] (entryCount w)).

Definition Reset (fs : FS) (w : WAL) : result unit * FS * WAL :=
  (Ok tt, <[wal_path w := []]> fs, mkWAL (wal_path w) (syncWrites w) (walCh w) 0).

End WAL_.

(** *** Recovery (recovery.go) *)

(** The five reads of one round of the replay loop. *)
Definition read_wal_record (f : File) : result (Z * string * string * File) :=
  '(opByte, f) ← Read_byte f;
  let op := Z_of_byte opByte in
  '(keyLen, f) ← Read_u16_be f;
  '(keyBytes, f) ← ReadFull f keyLen;
  let key := string_of_bytes keyBytes in
  '(valLen, f) ← Read_u16_be f;
  '(valBytes, f) ← ReadFull f valLen;
  let value := string_of_bytes valBytes in
  Ok (op, key, value, f).

Definition apply_wal_record (op : Z) (key value : string) (m : MemTable) : MemTable :=
  if op =? 0 then (MemTable_.Insert m key value).2
  else if op =? 1 then (MemTable_.Delete m key).2
  else m.

(** Every read breaks out of the loop on [io.EOF] and
    [io.ErrUnexpectedEOF] and returns any other error. *)
Fixpoint replay (fuel : nat) (f : File) (m : MemTable) : result unit * MemTable :=
  match fuel with
  | O => (Err OutOfFuel, m)
  | S fuel' =>
      match read_wal_record f with
      | Err EOF | Err ErrUnexpectedEOF => (Ok tt, m)
      | Err e => (Err e, m)
      | Ok (op, key, value, f') => replay fuel' f' (apply_wal_record op key value m)
      end
  end.

Definition RecoverFromWAL (fs : FS) (walPath : string) (memTable : MemTable)
  : result unit * MemTable :=
  match os_Open fs walPath with
  | Err e => (Err e, memTable)
  | Ok file =>
      if file_size fs walPath =? 0 then (Ok tt, memTable)
      else replay (S (length (rest file))) file memTable
  end.

(** *** The LSM tree (lsmtree.go) *)

Record LSMTree := mkLSMTree {
  config : Config;
  memTable : MemTable;          (* the pointee of the atomic pointer *)
  wal : WAL;
  levels : list (list SSTable);
  cache : Cache;
  metrics : Metrics
}.

Definition set_memTable (l : LSMTree) (m : MemTable) : LSMTree :=
  mkLSMTree (config l) m (wal l) (levels l) (cache l) (metrics l).
Definition set_wal (l : LSMTree) (w : WAL) : LSMTree :=
  mkLSMTree (config l) (memTable l) w (levels l) (cache l) (metrics l).
Definition set_levels (l : LSMTree) (lv : list (list SSTable)) : LSMTree :=
  mkLSMTree (config l) (memTable l) (wal l) lv (cache l) (metrics l).
Definition set_cache (l : LSMTree) (c : Cache) : LSMTree :=
  mkLSMTree (config l) (memTable l) (wal l) (levels l) c (metrics l).
Definition set_metrics (l : LSMTree) (m : Metrics) : LSMTree :=
  mkLSMTree (config l) (memTable l) (wal l) (levels l) (cache l) m.

(** [sort.Slice(level, func(i, j) bool { return level[i].minKey < level[j].minKey })]. *)
Definition sort_by_minKey (level : list SSTable) : list SSTable :=
  insertion_sort (fun a b => str_lt (minKey a) (minKey b)) level.

(** [filepath.Join(dir, fmt.Sprintf("db.sst.%d.sst", nanos))] for a clean
    [dir]; [nanos] is the reading of [time.Now().UnixNano()]. *)
Definition sst_path (dir : string) (nanos : Z) : string :=
  (dir +:+ "/db.sst." +:+ pretty nanos +:+ ".sst")%string.

(** The state of a tree opened on an empty data directory. *)
Definition NewLSMTree_empty (fs : FS) (config : Config) : LSMTree * FS :=
  let walPath := (FilePath config +:+ "/db.wal")%string in
  let '(wal, fs) := WAL_.NewWAL fs walPath (SyncWrites config) in
  (mkLSMTree config (NewMemTable (MemTableSize config)) wal [[]]
             (NewCache (CacheSize config)) NewMetrics, fs).

Module LSMTree_.

Definition flushMemTable (fs : FS) (l : LSMTree) (now : Z) : result unit * FS * LSMTree :=
  let oldMT := memTable l in
  if MemTable_.Size oldMT =? 0 then (Ok tt, fs, l)
  else
    let '(data, _) := MemTable_.Swap oldMT in
    let newMT := NewMemTable (MemTableSize (config l)) in
    let l := set_memTable l newMT in
    let sstPath := sst_path (FilePath (config l)) now in
    match CreateSSTable fs sstPath data (CompressionType (config l))
                        (UseBloomFilter (config l)) with
    | (Err e, fs) => (Err e, fs, l)
    | (Ok sst, fs) =>
        match levels l with
        | [] => (Err (Panic "index out of range"), fs, l)
        | level0 :: higher =>
            let l := set_levels l (sort_by_minKey (level0 ++ [sst]) :: higher) in
            let '(fs, w) := WAL_.Flush fs (wal l) in
            let '(r, fs, w) := WAL_.Reset fs w in
            (r, fs, set_wal l w)
        end
    end.

Definition Insert (fs : FS) (l : LSMTree) (key value : string) (now : Z)
  : result unit * FS * LSMTree :=
  let entry := mkWalEntry 0 key value in
  let '(_, w) := WAL_.Append (wal l) entry in
  let l := set_wal l w in
  match MemTable_.Insert (memTable l) key value with
  | (Ok _, mt) => (Ok tt, fs, set_metrics (set_memTable l mt) (IncWrites (metrics l)))
  | (Err ErrMemTableFull, _) =>
      match flushMemTable fs l now with
      | (Err e, fs, l) => (Err e, fs, l)
      | (Ok _, fs, l) =>
          match MemTable_.Insert (memTable l) key value with
          | (Err e, _) => (Err e, fs, l)
          | (Ok _, mt) =>
              (Ok tt, fs, set_metrics (set_memTable l mt) (IncWrites (metrics l)))
          end
      end
  | (Err e, _) => (Err e, fs, l)
  end.

(** [level[i]] for the index [sort.Search] hands to its predicate. *)
Definition covers (level : list SSTable) (key : string) (i : Z) : bool :=
  match level !! Z.to_nat i with
  | Some s => str_le key (maxKey s)
  | None => false
  end.

(** The loop over [l.levels] of [Get]: the value found, if any. *)
Fixpoint search_levels (fs : FS) (lvls : list (list SSTable)) (key : string)
  : option string :=
  match lvls with
  | [] => None
  | level :: lvls' =>
      let n := Z.of_nat (length level) in
      let idx := sort_Search n (covers level key) in
      match (if idx <? n then level !! Z.to_nat idx else None) with
      | Some s =>
          if str_le (minKey s) key then
            match SSTable_.Get fs s key with
            | (val, true) => Some val
            | (_, false) => search_levels fs lvls' key
            end
          else search_levels fs lvls' key
      | None => search_levels fs lvls' key
      end
  end.

Definition Get (fs : FS) (l : LSMTree) (key : string) : result string * LSMTree :=
  match MemTable_.Get (memTable l) key with
  | (value, true) => (Ok value, set_metrics l (IncCacheHit (metrics l)))
  | (_, false) =>
      match Cache_.Get (cache l) key with
      | ((value, true), c) =>
          (Ok value, set_metrics (set_cache l c) (IncCacheHit (metrics l)))
      | ((_, false), c) =>
          let l := set_cache l c in
          match search_levels fs (levels l) key with
          | Some val =>
              (Ok val, set_metrics (set_cache l (Cache_.Put (cache l) key val))
                                   (IncReads (metrics l)))
          | None => (Err ErrKeyNotFound, l)
          end
      end
  end.

Definition Delete (l : LSMTree) (key : string) : result unit * LSMTree :=
  let entry := mkWalEntry 1 key EmptyString in
  let '(_, w) := WAL_.Append (wal l) entry in
  let l := set_wal l w in
  match MemTable_.Delete (memTable l) key with
  | (Err e, _) => (Err e, l)
  | (Ok _, mt) => (Ok tt, set_metrics (set_memTable l mt) (IncWrites (metrics l)))
  end.

End LSMTree_.

(** *** Compaction (compaction.go) *)

(** [io.CopyN(outFile, f, dataSize)] for each input, appended to the
    output file. *)
Fixpoint copy_bodies (fs : FS) (newPath : string) (ssts : list SSTable) : result unit * FS :=
  match ssts with
  | [] => (Ok tt, fs)
  | sst :: ssts' =>
      match fs !! filePath sst with
      | None => (Err ErrNotExist, fs)
      | Some content =>
          let dataSize := Z.of_nat (length content) - 4 in
          let fs := WAL_.file_Write fs newPath (take (Z.to_nat dataSize) content) in
          copy_bodies fs newPath ssts'
      end
  end.

Definition mergeSSTables (fs : FS) (ssts : list SSTable) (config : Config) (now : Z)
  : result SSTable * FS :=
  let newPath := sst_path (FilePath config) now in
  let fs := <[newPath := []]> fs in
  match copy_bodies fs newPath ssts with
  | (Err e, fs) => (Err e, fs)
  | (Ok _, fs) =>
      let data := default [] (fs !! newPath) in
      let checksum := ChecksumIEEE data in
      let fs := WAL_.file_Write fs newPath (put_u32_be checksum) in
      (OpenSSTable fs newPath (UseBloomFilter config), fs)
  end.

Module Compactor_.

Definition Compact (fs : FS) (l : LSMTree) (now : Z) : result unit * FS * LSMTree :=
  match levels l with
  | [] => (Err (Panic "index out of range"), fs, l)
  | level0 :: higher =>
      if Z.of_nat (length level0) <? 4 then (Ok tt, fs, l)
      else
        match mergeSSTables fs level0 (config l) now with
        | (Err e, fs) => (Err e, fs, l)
        | (Ok merged, fs) =>
            match higher with
            | [] => (Ok tt, fs, set_levels l [[]; sort_by_minKey [merged]])
            | level1 :: rest =>
                (Ok tt, fs,
                 set_levels l ([] :: sort_by_minKey (level1 ++ [merged]) :: rest))
            end
        end
  end.

End Compactor_.

(** [ForceCompaction]; [now1] and [now2] are the clock readings of the flush
    and of the merge. *)
Definition ForceCompaction (fs : FS) (l : LSMTree) (now1 now2 : Z)
  : result unit * FS * LSMTree :=
  if MemTable_.Size (memTable l) >? 0 then
    match LSMTree_.flushMemTable fs l now1 with
    | (Err e, fs, l) => (Err e, fs, l)
    | (Ok _, fs, l) => Compactor_.Compact fs l now2
    end
  else Compactor_.Compact fs l now2.

(** [Stats()["sstable_count"]]. *)
Definition sstable_count (l : LSMTree) : Z :=
  fold_left (fun total level => total + Z.of_nat (length level)) (levels l) 0.

End LSM.

(** ** The paged B-tree (btree.go)

    [*Node] values are indices into [heap], so that a node reached through
    the cache is the very object an operation mutates.  An operation is a
    state transformer that can fail: on an error the changes made so far
    stay, as in the Go code. *)

Module BT.

Record BtConfig := mkBtConfig {
  cfg_Degree : Z;
  cfg_PageSize : Z;
  cfg_ThreadSafe : bool;
  cfg_CacheSize : Z
}.

Record Item := mkItem { Key : string; Value : string }.

Global Instance Item_eq_dec : EqDecision Item.
Proof. solve_decision. Defined.

Record Node := mkNode {
  items : list Item;
  childrenOffsets : list Z;
  offset : Z;
  elem : bool                   (* [elem != nil]: the node owns an LRU list element *)
}.

Abbreviation ptr := nat.

Record Btree := mkBtree {
  Degree : Z;
  Length : Z;
  RootOffset : Z;
  file : list ascii;            (* the contents of the disk file *)
  pageSize : Z;
  nextOffset : Z;
  threadSafe : bool;
  heap : list Node;             (* the [Node] objects allocated so far *)
  cache : gmap Z ptr;
  cacheList : list ptr;         (* front first; an element is named by its node *)
  cacheSize : Z
}.

Definition set_Length (v : Z) (b : Btree) : Btree :=
  mkBtree (Degree b) v (RootOffset b) (file b) (pageSize b) (nextOffset b)
          (threadSafe b) (heap b) (cache b) (cacheList b) (cacheSize b).
Definition set_RootOffset (v : Z) (b : Btree) : Btree :=
  mkBtree (Degree b) (Length b) v (file b) (pageSize b) (nextOffset b)
          (threadSafe b) (heap b) (cache b) (cacheList b) (cacheSize b).
Definition set_file (v : list ascii) (b : Btree) : Btree :=
  mkBtree (Degree b) (Length b) (RootOffset b) v (pageSize b) (nextOffset b)
          (threadSafe b) (heap b) (cache b) (cacheList b) (cacheSize b).
Definition set_nextOffset (v : Z) (b : Btree) : Btree :=
  mkBtree (Degree b) (Length b) (RootOffset b) (file b) (pageSize b) v
          (threadSafe b) (heap b) (cache b) (cacheList b) (cacheSize b).
Definition set_heap (v : list Node) (b : Btree) : Btree :=
  mkBtree (Degree b) (Length b) (RootOffset b) (file b) (pageSize b) (nextOffset b)
          (threadSafe b) v (cache b) (cacheList b) (cacheSize b).
Definition set_cache (v : gmap Z ptr) (b : Btree) : Btree :=
  mkBtree (Degree b) (Length b) (RootOffset b) (file b) (pageSize b) (nextOffset b)
          (threadSafe b) (heap b) v (cacheList b) (cacheSize b).
Definition set_cacheList (v : list ptr) (b : Btree) : Btree :=
  mkBtree (Degree b) (Length b) (RootOffset b) (file b) (pageSize b) (nextOffset b)
          (threadSafe b) (heap b) (cache b) v (cacheSize b).

(** *** The state-and-error monad of the operations *)

Definition M (A : Type) : Type := Btree → result A * Btree.

Global Instance M_bind : MBind M := λ A B k m b,
  match m b with
  | (Ok a, b') => k a b'
  | (Err e, b') => (Err e, b')
  end.
Global Instance M_ret : MRet M := λ A a b, (Ok a, b).

Definition fail {A} (e : error) : M A := λ b, (Err e, b).
Definition gets {A} (f : Btree → A) : M A := λ b, (Ok (f b), b).
Definition modify (f : Btree → Btree) : M unit := λ b, (Ok tt, f b).
(** Run [m] and hand its error to the caller as a value ([x, err := m]). *)
Definition try {A} (m : M A) : M (result A) := λ b, let '(r, b') := m b in (Ok r, b').
Definition lift {A} (r : result A) : M A := λ b, (r, b).

(** Slice indexing and re-slicing; out of range is a run-time panic.
    Slices are lists: capacity beyond the length is not modelled. *)
Definition at_ {A} (l : list A) (i : Z) : M A :=
  match (if i <? 0 then None else l !! Z.to_nat i) with
  | Some x => mret x
  | None => fail (Panic "index out of range")
  end.
Definition slice_from {A} (l : list A) (i : Z) : M (list A) :=
  if (i <? 0) || (Z.of_nat (length l) <? i) then fail (Panic "slice bounds out of range")
  else mret (drop (Z.to_nat i) l).
Definition slice_to {A} (l : list A) (i : Z) : M (list A) :=
  if (i <? 0) || (Z.of_nat (length l) <? i) then fail (Panic "slice bounds out of range")
  else mret (take (Z.to_nat i) l).
Definition llen {A} (l : list A) : Z := Z.of_nat (length l).

(** Pointers. *)
Definition new (n : Node) : M ptr :=
  λ b, (Ok (length (heap b)), set_heap (heap b ++ [n]) b).
Definition deref (p : ptr) : M Node :=
  λ b, match heap b !! p with
       | Some n => (Ok n, b)
       | None => (Err (Panic "nil pointer dereference"), b)
       end.
Definition update (p : ptr) (f : Node → Node) : M unit :=
  modify (λ b, set_heap (alter f p (heap b)) b).

Definition with_items (v : list Item) (n : Node) : Node :=
  mkNode v (childrenOffsets n) (offset n) (elem n).
Definition with_children (v : list Z) (n : Node) : Node :=
  mkNode (items n) v (offset n) (elem n).
Definition with_offset (v : Z) (n : Node) : Node :=
  mkNode (items n) (childrenOffsets n) v (elem n).
Definition with_elem (v : bool) (n : Node) : Node :=
  mkNode (items n) (childrenOffsets n) (offset n) v.

Definition isLeaf (n : Node) : bool := llen (childrenOffsets n) =? 0.

(** *** Pages: little-endian encoding, [ReadAt] and [WriteAt] *)

Definition zero : ascii := byte_of_Z 0.

Definition put_le (nbytes : nat) (z : Z) : list ascii :=
  map (λ i, byte_of_Z (z / 2 ^ (8 * Z.of_nat i))) (seq 0 nbytes).
Definition get_le (bs : list ascii) : Z :=
  fold_right (λ b acc, Z_of_byte b + 256 * acc) 0 bs.

Definition pad_to (n : Z) (bs : list ascii) : list ascii :=
  bs ++ replicate (Z.to_nat n - length bs) zero.

(** [padded := make([]byte, n); copy(padded, data)]. *)
Definition padded (n : Z) (data : list ascii) : list ascii :=
  take (Z.to_nat n) (pad_to n data).

(** [file.ReadAt(data, off)] into a zeroed buffer of [n] bytes: the buffer
    and the error of a short read. *)
Definition ReadAt (file : list ascii) (n off : Z) : list ascii * option error :=
  if off <? 0 then (pad_to n [], Some (Errorf "negative offset"))
  else
    let got := take (Z.to_nat n) (drop (Z.to_nat off) file) in
    (pad_to n got, if llen got <? n then Some EOF else None).

(** [file.WriteAt(data, off)]; a write past the end fills the gap with
    zero bytes. *)
Definition WriteAt (file : list ascii) (data : list ascii) (off : Z) : list ascii :=
  let o := Z.to_nat off in
  pad_to off (take o file) ++ data ++ drop (o + length data) file.

(** [binary.Read(buf, binary.LittleEndian, &x)] on a [bytes.Reader], for
    [x] of [nbytes] bytes. *)
Definition rd_le (nbytes : nat) (rd : list ascii) : result (Z * list ascii) :=
  match rd with
  | [] => Err EOF
  | _ => if (length rd <? nbytes)%nat then Err ErrUnexpectedEOF
         else Ok (get_le (take nbytes rd), drop nbytes rd)
  end.

(** [buf.Read(bs)] on a [bytes.Reader] with [len(bs) = n]: [io.EOF] at the
    end of the data, otherwise as many bytes as are left, the rest of
    [bs] staying zero. *)
Definition rd_Read (n : Z) (rd : list ascii) : result (list ascii * list ascii) :=
  match rd with
  | [] => Err EOF
  | _ => Ok (pad_to n (take (Z.to_nat n) rd), drop (Z.to_nat n) rd)
  end.

(** [if err != nil { return nil, fmt.Errorf(msg, err) }]. *)
Definition or_fail {A} (msg : string) (r : result A) : result A :=
  match r with Ok a => Ok a | Err _ => Err (Errorf msg) end.

Fixpoint read_items (count : nat) (rd : list ascii) : result (list Item * list ascii) :=
  match count with
  | O => Ok ([], rd)
  | S count' =>
      '(keyLen, rd) ← or_fail "failed to read key length: %v" (rd_le 2 rd);
      '(keyBytes, rd) ← or_fail "failed to read key: %v" (rd_Read keyLen rd);
      '(valueLen, rd) ← or_fail "failed to read value length: %v" (rd_le 2 rd);
      '(valueBytes, rd) ← or_fail "failed to read value: %v" (rd_Read valueLen rd);
      '(more, rd) ← read_items count' rd;
      Ok (mkItem (string_of_bytes keyBytes) (string_of_bytes valueBytes) :: more, rd)
  end.

Fixpoint read_children (count : nat) (rd : list ascii) : result (list Z * list ascii) :=
  match count with
  | O => Ok ([], rd)
  | S count' =>
      '(childOffset, rd) ← or_fail "failed to read child offset: %v" (rd_le 8 rd);
      '(more, rd) ← read_children count' rd;
      Ok (wrap_int64 childOffset :: more, rd)
  end.

Definition decode_node (data : list ascii) (offset : Z) : result Node :=
  '(itemsCount, rd) ← or_fail "failed to read items count: %v" (rd_le 4 data);
  '(childrenCount, rd) ← or_fail "failed to read children count: %v" (rd_le 4 rd);
  '(items, rd) ← read_items (Z.to_nat itemsCount) rd;
  '(children, rd) ← read_children (Z.to_nat childrenCount) rd;
  Ok (mkNode items children offset false).

Definition item_bytes (item : Item) : list ascii :=
  put_le 2 (to_uint16 (len (Key item))) ++ bytes_of_string (Key item)
  ++ put_le 2 (to_uint16 (len (Value item))) ++ bytes_of_string (Value item).

Definition encode_node (n : Node) : list ascii :=
  put_le 4 (to_uint32 (llen (items n))) ++ put_le 4 (to_uint32 (llen (childrenOffsets n)))
  ++ concat (map item_bytes (items n)) ++ concat (map (put_le 8) (childrenOffsets n)).

Definition header_bytes (b : Btree) : list ascii :=
  put_le 8 (RootOffset b) ++ put_le 4 (Length b).

(** *** Header and node I/O *)

Definition saveHeader : M unit :=
  modify (λ b, set_file (WriteAt (file b) (padded (pageSize b) (header_bytes b)) 0) b).

Definition readNodeFromDisk (offset : Z) : M ptr :=
  b ← gets id;
  match ReadAt (file b) (pageSize b) offset with
  | (_, Some _) => fail (Errorf "failed to read node from disk: %v")
  | (data, None) => n ← lift (decode_node data offset); new n
  end.

Definition writeNodeToDisk (n : ptr) (offset : Z) : M unit :=
  node ← deref n;
  b ← gets id;
  let data := encode_node node in
  if llen data >? pageSize b then fail (Errorf "node data exceeds page size: %d > %d")
  else
    modify (λ b, set_file (WriteAt (file b) (padded (pageSize b) data) offset) b);;
    update n (with_offset offset).

(** *** The LRU node cache *)

Definition MoveToFront (e : ptr) (l : list ptr) : list ptr :=
  if bool_decide (e ∈ l) then e :: List.filter (λ p, negb (Nat.eqb p e)) l else l.

Definition cacheNode (n : ptr) : M unit :=
  b ← gets id;
  if cacheSize b <=? 0 then mret tt
  else
    node ← deref n;
    match cache b !! offset node with
    | Some cached =>
        c ← deref cached;
        (if elem c then modify (λ b, set_cacheList (MoveToFront cached (cacheList b)) b)
         else mret tt);;
        modify (λ b, set_cache (<[offset node := n]> (cache b)) b)
    | None =>
        modify (λ b, set_cacheList (n :: cacheList b) b);;
        modify (λ b, set_cache (<[offset node := n]> (cache b)) b);;
        update n (with_elem true);;
        b ← gets id;
        if llen (cacheList b) >? cacheSize b then
          match last (cacheList b) with
          | Some oldNode =>
              old ← deref oldNode;
              modify (λ b, set_cache (delete (offset old) (cache b)) b);;
              modify (λ b, set_cacheList (removelast (cacheList b)) b);;
              update oldNode (with_elem false)
          | None => mret tt
          end
        else mret tt
    end.

Definition moveToFront (offset : Z) : M unit :=
  b ← gets id;
  match cache b !! offset with
  | Some e =>
      node ← deref e;
      if elem node then modify (λ b, set_cacheList (MoveToFront e (cacheList b)) b)
      else mret tt
  | None => mret tt
  end.

Definition readNode (offset : Z) : M ptr :=
  b ← gets id;
  match (if cacheSize b >? 0 then cache b !! offset else None) with
  | Some node => moveToFront offset;; mret node
  | None =>
      node ← readNodeFromDisk offset;
      (if cacheSize b >? 0 then cacheNode node else mret tt);;
      mret node
  end.

Definition writeNode (n : ptr) (offset : Z) : M unit :=
  writeNodeToDisk n offset;;
  b ← gets id;
  if cacheSize b >? 0 then cacheNode n else mret tt.

Definition allocateNode : M Z :=
  b ← gets id;
  let offset := nextOffset b in
  modify (set_nextOffset (wrap_int64 (nextOffset b + pageSize b)));;
  mret offset.

(** *** Construction *)

Definition loadHeader : M unit :=
  b ← gets id;
  match ReadAt (file b) (pageSize b) 0 with
  | (_, Some (Errorf _)) => fail (Errorf "failed to read header: %v")
  | (data, _) =>
      match rd_le 8 data with
      | Err _ => mret tt
      | Ok (rootOffset, rd) =>
          match rd_le 4 rd with
          | Err _ => mret tt
          | Ok (length, _) =>
              modify (set_RootOffset (wrap_int64 rootOffset));;
              modify (set_Length ((length + 2^31) mod 2^32 - 2^31));;
              modify (λ b, set_nextOffset
                             (if llen (file b) >? pageSize b then llen (file b)
                              else pageSize b) b)
          end
      end
  end.

Definition NewBtree (file : list ascii) (config : BtConfig) : Btree :=
  let degree := if cfg_Degree config <=? 0 then 32 else cfg_Degree config in
  let pageSize := if cfg_PageSize config <=? 0 then 4096 else cfg_PageSize config in
  let cacheSize := if cfg_CacheSize config <? 0 then 0 else cfg_CacheSize config in
  let b := mkBtree degree 0 0 file pageSize pageSize (cfg_ThreadSafe config)
                   [] ∅ [] cacheSize in
  match loadHeader b with
  | (Ok _, b) => b
  | (Err _, b) => (saveHeader b).2
  end.

(** *** Insert *)

Definition item_less (x y : Item) : bool := str_lt (Key x) (Key y).

(** The loop [for i >= 0 && key < n.items[i].Key { i-- }] run down from
    [i] over the items in reverse. *)
Fixpoint scan_down (key : string) (rev_items : list Item) (i : Z) : Z :=
  match rev_items with
  | [] => i
  | item :: more => if str_lt key (Key item) then scan_down key more (i - 1) else i
  end.

(** The loop [for i < len(n.items) && key > n.items[i].Key { i++ }]. *)
Fixpoint scan_up (key : string) (items : list Item) (i : Z) : Z :=
  match items with
  | [] => i
  | item :: more => if str_lt (Key item) key then scan_up key more (i + 1) else i
  end.

Definition insert_at {A} (l : list A) (i : Z) (x : A) : list A :=
  take (Z.to_nat i) l ++ x :: drop (Z.to_nat i) l.

Definition splitChild (parent : ptr) (index : Z) (child : ptr) : M unit :=
  t ← gets Degree;
  c ← deref child;
  median ← at_ (items c) (t - 1);
  zItems ← slice_from (items c) t;
  z ← new (mkNode zItems [] 0 false);
  (if negb (isLeaf c) then
     zChildren ← slice_from (childrenOffsets c) t;
     update z (with_children zChildren);;
     kept ← slice_to (childrenOffsets c) t;
     update child (with_children kept)
   else mret tt);;
  c ← deref child;
  kept ← slice_to (items c) (t - 1);
  update child (with_items kept);;
  zOffset ← allocateNode;
  update z (with_offset zOffset);;
  p ← deref parent;
  (if index + 1 >=? llen (childrenOffsets p) then
     update parent (with_children (childrenOffsets p ++ [zOffset]))
   else
     update parent (with_children (insert_at (childrenOffsets p) (index + 1) zOffset)));;
  p ← deref parent;
  (if (index <? 0) || (llen (items p) <? index)
   then fail (Panic "slice bounds out of range")
   else update parent (with_items (insert_at (items p) index median)));;
  c ← deref child;
  writeNode child (offset c);;
  zn ← deref z;
  writeNode z (offset zn);;
  p ← deref parent;
  writeNode parent (offset p).

Fixpoint insertNonFull (fuel : nat) (n : ptr) (key value : string) : M unit :=
  match fuel with
  | O => fail OutOfFuel
  | S fuel' =>
      node ← deref n;
      let i := llen (items node) - 1 in
      if isLeaf node then
        update n (with_items (sift_left item_less (mkItem key value) (rev (items node)) []));;
        node ← deref n;
        writeNode n (offset node)
      else
        let i := scan_down key (rev (items node)) i + 1 in
        childOffset ← at_ (childrenOffsets node) i;
        child ← readNode childOffset;
        c ← deref child;
        t ← gets Degree;
        if llen (items c) =? 2 * t - 1 then
          splitChild n i child;;
          node ← deref n;
          item ← at_ (items node) i;
          let i := if str_lt (Key item) key then i + 1 else i in
          childOffset ← at_ (childrenOffsets node) i;
          child ← readNode childOffset;
          insertNonFull fuel' child key value
        else insertNonFull fuel' child key value
  end.

Definition Insert (fuel : nat) (key value : string) : M unit :=
  b ← gets id;
  if Length b =? 0 then
    newNode ← new (mkNode [mkItem key value] [] 0 false);
    offset ← allocateNode;
    update newNode (with_offset offset);;
    writeNode newNode offset;;
    modify (set_RootOffset offset);;
    modify (λ b, set_Length (wrap_int64 (Length b + 1)) b);;
    saveHeader;;
    cacheNode newNode
  else
    root ← readNode (RootOffset b);
    r ← deref root;
    (if llen (items r) =? 2 * Degree b - 1 then
       newRoot ← new (mkNode [] [offset r] 0 false);
       newRootOffset ← allocateNode;
       update newRoot (with_offset newRootOffset);;
       splitChild newRoot 0 root;;
       insertNonFull fuel newRoot key value;;
       writeNode newRoot newRootOffset;;
       modify (set_RootOffset newRootOffset);;
       cacheNode newRoot
     else insertNonFull fuel root key value);;
    modify (λ b, set_Length (wrap_int64 (Length b + 1)) b);;
    saveHeader.

(** *** Get *)

Fixpoint searchValue (fuel : nat) (offset : Z) (key : string) : M string :=
  match fuel with
  | O => fail OutOfFuel
  | S fuel' =>
      n ← readNode offset;
      node ← deref n;
      let i := scan_up key (items node) 0 in
      match (if i <? llen (items node) then items node !! Z.to_nat i else None) with
      | Some item =>
          if str_eqb key (Key item) then mret (Value item)
          else if isLeaf node then fail (Errorf "key not found")
          else childOffset ← at_ (childrenOffsets node) i;
               searchValue fuel' childOffset key
      | None =>
          if isLeaf node then fail (Errorf "key not found")
          else childOffset ← at_ (childrenOffsets node) i;
               searchValue fuel' childOffset key
      end
  end.

Definition Get (fuel : nat) (key : string) : M string :=
  b ← gets id;
  if Length b =? 0 then fail ErrKeyNotFound
  else searchValue fuel (RootOffset b) key.

(** *** Delete *)

Definition remove_at {A} (l : list A) (i : Z) : list A :=
  take (Z.to_nat i) l ++ drop (S (Z.to_nat i)) l.

(** [l[len(l)-1]]. *)
Definition last_of {A} (l : list A) : M A := at_ l (llen l - 1).

Fixpoint getPredecessor (fuel : nat) (n : ptr) : M Item :=
  match fuel with
  | O => fail OutOfFuel
  | S fuel' =>
      node ← deref n;
      if negb (isLeaf node) then
        lastChildOffset ← last_of (childrenOffsets node);
        n ← readNode lastChildOffset;
        getPredecessor fuel' n
      else last_of (items node)
  end.

Fixpoint getSuccessor (fuel : nat) (n : ptr) : M Item :=
  match fuel with
  | O => fail OutOfFuel
  | S fuel' =>
      node ← deref n;
      if negb (isLeaf node) then
        firstChildOffset ← at_ (childrenOffsets node) 0;
        n ← readNode firstChildOffset;
        getSuccessor fuel' n
      else at_ (items node) 0
  end.

Definition mergeNodes (parent : ptr) (idx : Z) : M unit :=
  p ← deref parent;
  leftOffset ← at_ (childrenOffsets p) idx;
  rightOffset ← at_ (childrenOffsets p) (idx + 1);
  left ← readNode leftOffset;
  right ← readNode rightOffset;
  p ← deref parent;
  sep ← at_ (items p) idx;
  r ← deref right;
  l ← deref left;
  update left (with_items ((items l ++ [sep]) ++ items r));;
  (if negb (isLeaf l) then
     update left (λ l, with_children (childrenOffsets l ++ childrenOffsets r) l)
   else mret tt);;
  p ← deref parent;
  hd ← slice_to (items p) idx;
  tl ← slice_from (items p) (idx + 1);
  update parent (with_items (hd ++ tl));;
  hd ← slice_to (childrenOffsets p) (idx + 1);
  tl ← slice_from (childrenOffsets p) (idx + 2);
  update parent (with_children (hd ++ tl));;
  l ← deref left;
  writeNode left (offset l);;
  p ← deref parent;
  writeNode parent (offset p).

Definition borrowFromPrev (parent : ptr) (idx : Z) : M unit :=
  p ← deref parent;
  childOffset ← at_ (childrenOffsets p) idx;
  child ← readNode childOffset;
  leftOffset ← at_ (childrenOffsets p) (idx - 1);
  leftSibling ← readNode leftOffset;
  p ← deref parent;
  sep ← at_ (items p) (idx - 1);
  c ← deref child;
  update child (with_items (sep :: items c));;
  (if negb (isLeaf c) then
     ls ← deref leftSibling;
     moved ← last_of (childrenOffsets ls);
     update child (λ c, with_children (moved :: childrenOffsets c) c);;
     ls ← deref leftSibling;
     kept ← slice_to (childrenOffsets ls) (llen (childrenOffsets ls) - 1);
     update leftSibling (with_children kept)
   else mret tt);;
  ls ← deref leftSibling;
  up ← last_of (items ls);
  p ← deref parent;
  update parent (with_items (<[Z.to_nat (idx - 1) := up]> (items p)));;
  ls ← deref leftSibling;
  kept ← slice_to (items ls) (llen (items ls) - 1);
  update leftSibling (with_items kept);;
  c ← deref child;
  writeNode child (offset c);;
  ls ← deref leftSibling;
  writeNode leftSibling (offset ls);;
  p ← deref parent;
  writeNode parent (offset p).

Definition borrowFromNext (parent : ptr) (idx : Z) : M unit :=
  p ← deref parent;
  childOffset ← at_ (childrenOffsets p) idx;
  child ← readNode childOffset;
  rightOffset ← at_ (childrenOffsets p) (idx + 1);
  rightSibling ← readNode rightOffset;
  p ← deref parent;
  sep ← at_ (items p) idx;
  c ← deref child;
  update child (with_items (items c ++ [sep]));;
  (if negb (isLeaf c) then
     rs ← deref rightSibling;
     moved ← at_ (childrenOffsets rs) 0;
     update child (λ c, with_children (childrenOffsets c ++ [moved]) c);;
     rs ← deref rightSibling;
     kept ← slice_from (childrenOffsets rs) 1;
     update rightSibling (with_children kept)
   else mret tt);;
  rs ← deref rightSibling;
  up ← at_ (items rs) 0;
  p ← deref parent;
  update parent (with_items (<[Z.to_nat idx := up]> (items p)));;
  rs ← deref rightSibling;
  kept ← slice_from (items rs) 1;
  update rightSibling (with_items kept);;
  c ← deref child;
  writeNode child (offset c);;
  rs ← deref rightSibling;
  writeNode rightSibling (offset rs);;
  p ← deref parent;
  writeNode parent (offset p).

(** [sibling, err := b.readNode(off); if err == nil && len(sibling.items) >= b.Degree]. *)
Definition can_lend (off : Z) : M bool :=
  r ← try (readNode off);
  match r with
  | Err _ => mret false
  | Ok sibling => s ← deref sibling; t ← gets Degree; mret (llen (items s) >=? t)
  end.

Definition fill (parent : ptr) (idx : Z) : M unit :=
  p ← deref parent;
  childOffset ← at_ (childrenOffsets p) idx;
  readNode childOffset;;
  p ← deref parent;
  lendL ← (if idx >? 0 then off ← at_ (childrenOffsets p) (idx - 1); can_lend off
           else mret false : M bool);
  if (lendL : bool) then borrowFromPrev parent idx
  else
    p ← deref parent;
    lendR ← (if idx <? llen (childrenOffsets p) - 1
             then off ← at_ (childrenOffsets p) (idx + 1); can_lend off
             else mret false : M bool);
    if (lendR : bool) then borrowFromNext parent idx
    else if idx >? 0 then mergeNodes parent (idx - 1)
    else mergeNodes parent idx.

Fixpoint deleteFromNode (fuel : nat) (offset : Z) (key : string) : M unit :=
  match fuel with
  | O => fail OutOfFuel
  | S fuel' =>
      n ← readNode offset;
      node ← deref n;
      let idx := scan_up key (items node) 0 in
      let found :=
        match (if idx <? llen (items node) then items node !! Z.to_nat idx else None) with
        | Some item => str_eqb key (Key item)
        | None => false
        end in
      if found then
        if isLeaf node then
          update n (with_items (remove_at (items node) idx));;
          writeNode n offset
        else
          leftOffset ← at_ (childrenOffsets node) idx;
          rightOffset ← at_ (childrenOffsets node) (idx + 1);
          leftChild ← readNode leftOffset;
          lc ← deref leftChild;
          t ← gets Degree;
          if llen (items lc) >=? t then
            pred ← getPredecessor fuel' leftChild;
            update n (λ node, with_items (<[Z.to_nat idx := pred]> (items node)) node);;
            node ← deref n;
            writeNode n (BT.offset node);;
            deleteFromNode fuel' leftOffset (Key pred)
          else
            rightChild ← readNode rightOffset;
            rc ← deref rightChild;
            if llen (items rc) >=? t then
              succ ← getSuccessor fuel' rightChild;
              update n (λ node, with_items (<[Z.to_nat idx := succ]> (items node)) node);;
              node ← deref n;
              writeNode n (BT.offset node);;
              deleteFromNode fuel' rightOffset (Key succ)
            else
              mergeNodes n idx;;
              deleteFromNode fuel' leftOffset key
      else if isLeaf node then fail (Errorf "key not found")
      else
        childOffset ← at_ (childrenOffsets node) idx;
        child ← readNode childOffset;
        c ← deref child;
        t ← gets Degree;
        if llen (items c) <? t then
          fill n idx;;
          node ← deref n;
          n ← readNode (BT.offset node);
          node ← deref n;
          childOffset ← at_ (childrenOffsets node) idx;
          deleteFromNode fuel' childOffset key
        else deleteFromNode fuel' childOffset key
  end.

Definition Delete (fuel : nat) (key : string) : M unit :=
  b ← gets id;
  if Length b =? 0 then fail ErrKeyNotFound
  else
    deleteFromNode fuel (RootOffset b) key;;
    root ← readNode (RootOffset b);
    r ← deref root;
    (if (llen (items r) =? 0) && negb (isLeaf r) then
       newRootOffset ← at_ (childrenOffsets r) 0;
       modify (set_RootOffset newRootOffset);;
       cacheNode root
     else mret tt);;
    modify (λ b, set_Length (wrap_int64 (Length b - 1)) b);;
    saveHeader.

End BT.

(** * Properties *)

(** ** Check values of the library functions *)

Example crc32_check_value :
  ChecksumIEEE (bytes_of_string "123456789") = 0xCBF43926.
Proof. vm_compute. reflexivity. Qed.

Example fnv32a_check_value : fnv32a (bytes_of_string "a") = 0xE40C292C.
Proof. vm_compute. reflexivity. Qed.

Example sort_Strings_example :
  sort_Strings ["d"; "b"; "a"; "c"; "ab"]%string = ["a"; "ab"; "b"; "c"; "d"]%string.
Proof. vm_compute. reflexivity. Qed.

(** ** Bytes and fixed-width integers *)

Lemma Z_of_byte_range b : 0 ≤ Z_of_byte b < 256.
Proof.
  unfold Z_of_byte. pose proof (N_ascii_bounded b). lia.
Qed.

Lemma Z_of_byte_of_Z z : Z_of_byte (byte_of_Z z) = z mod 256.
Proof.
  unfold Z_of_byte, byte_of_Z.
  pose proof (Z.mod_pos_bound z 256 ltac:(lia)).
  rewrite N_ascii_embedding by lia. lia.
Qed.

Lemma byte_of_Z_of_byte b : byte_of_Z (Z_of_byte b) = b.
Proof.
  unfold byte_of_Z. pose proof (Z_of_byte_range b).
  rewrite Z.mod_small by lia. unfold Z_of_byte.
  rewrite N2Z.id. apply ascii_N_embedding.
Qed.

Lemma get_u16_be_range b1 b0 : 0 ≤ get_u16_be b1 b0 < 65536.
Proof.
  unfold get_u16_be. pose proof (Z_of_byte_range b1). pose proof (Z_of_byte_range b0). lia.
Qed.

Lemma get_put_u16 n :
  0 ≤ n < 65536 → get_u16_be (byte_of_Z (n / 256)) (byte_of_Z n) = n.
Proof.
  intros Hn. unfold get_u16_be. rewrite !Z_of_byte_of_Z.
  rewrite (Z.mod_small (n / 256)).
  - pose proof (Z.div_mod n 256 ltac:(lia)). lia.
  - split; [apply Z.div_pos; lia | apply Z.div_lt_upper_bound; lia].
Qed.

Lemma put_get_u16 b1 b0 : put_u16_be (get_u16_be b1 b0) = [b1; b0].
Proof.
  unfold put_u16_be, get_u16_be.
  pose proof (Z_of_byte_range b1). pose proof (Z_of_byte_range b0).
  f_equal; [|f_equal].
  - replace ((Z_of_byte b1 * 256 + Z_of_byte b0) / 256) with (Z_of_byte b1).
    + apply byte_of_Z_of_byte.
    + symmetry. rewrite Z.div_add_l by lia. rewrite Z.div_small by lia. lia.
  - unfold byte_of_Z.
    replace ((Z_of_byte b1 * 256 + Z_of_byte b0) mod 256) with (Z_of_byte b0 mod 256).
    + apply byte_of_Z_of_byte.
    + rewrite Z.add_comm, Z.mod_add by lia. reflexivity.
Qed.

Lemma get_put_u32 n :
  0 ≤ n < 2^32 →
  get_u32_be (byte_of_Z (n / 2^24)) (byte_of_Z (n / 2^16)) (byte_of_Z (n / 2^8))
             (byte_of_Z n) = n.
Proof.
  intros Hn. unfold get_u32_be. rewrite !Z_of_byte_of_Z.
  change (2^24) with (256 * 256 * 256). change (2^16) with (256 * 256).
  change (2^8) with 256. change (2^32) with 4294967296 in Hn.
  rewrite <- !Z.div_div by lia.
  set (a := n / 256). set (b := a / 256). set (c := b / 256).
  pose proof (Z.div_mod n 256 ltac:(lia)) as H0.
  pose proof (Z.div_mod a 256 ltac:(lia)) as H1.
  pose proof (Z.div_mod b 256 ltac:(lia)) as H2.
  fold a in H0. fold b in H1. fold c in H2.
  pose proof (Z.mod_pos_bound n 256 ltac:(lia)).
  pose proof (Z.mod_pos_bound a 256 ltac:(lia)).
  pose proof (Z.mod_pos_bound b 256 ltac:(lia)).
  assert (0 ≤ c < 256) by lia.
  rewrite (Z.mod_small c) by lia. lia.
Qed.

Lemma bytes_of_string_length s : length (bytes_of_string s) = String.length s.
Proof.
  unfold bytes_of_string. induction s as [|c s IH]; simpl; [reflexivity | by rewrite IH].
Qed.

Lemma string_of_bytes_of_string s : string_of_bytes (bytes_of_string s) = s.
Proof. apply string_of_list_ascii_of_string. Qed.

Lemma bytes_of_string_of_bytes bs : bytes_of_string (string_of_bytes bs) = bs.
Proof. apply list_ascii_of_string_of_list_ascii. Qed.

Lemma len_bytes s : Z.of_nat (length (bytes_of_string s)) = len s.
Proof. unfold len. by rewrite bytes_of_string_length. Qed.

Lemma len_nonneg s : 0 ≤ len s.
Proof. unfold len. lia. Qed.

Lemma wrap_int64_small z : - 2^63 ≤ z ≤ max_int64 → wrap_int64 z = z.
Proof.
  unfold wrap_int64, max_int64. intros H. rewrite Z.mod_small; lia.
Qed.

(** ** The checksum *)

Lemma lxor_u32 a b : 0 ≤ a < 2^32 → 0 ≤ b < 2^32 → 0 ≤ Z.lxor a b < 2^32.
Proof.
  intros Ha Hb.
  assert (0 ≤ Z.lxor a b) as Hnn by (apply Z.lxor_nonneg; lia).
  split; [exact Hnn|].
  destruct (Z.eq_dec (Z.lxor a b) 0) as [->|Hne]; [lia|].
  apply Z.log2_lt_pow2; [lia|].
  pose proof (Z.log2_lxor a b ltac:(lia) ltac:(lia)) as Hl.
  assert (∀ x, 0 ≤ x < 2^32 → Z.log2 x < 32) as Hlog.
  { intros x Hx. destruct (Z.eq_dec x 0) as [->|]; [reflexivity|].
    apply Z.log2_lt_pow2; lia. }
  pose proof (Hlog a Ha). pose proof (Hlog b Hb). lia.
Qed.

Lemma shiftr_u32 c n : 0 ≤ n → 0 ≤ c < 2^32 → 0 ≤ Z.shiftr c n < 2^32.
Proof.
  intros Hn Hc. rewrite Z.shiftr_div_pow2 by lia.
  assert (0 < 2 ^ n) by (apply Z.pow_pos_nonneg; lia).
  split; [apply Z.div_pos; lia|].
  apply Z.div_lt_upper_bound; [lia|]. nia.
Qed.

Lemma crc_bit_u32 c : 0 ≤ c < 2^32 → 0 ≤ crc_bit c < 2^32.
Proof.
  intros Hc. unfold crc_bit. pose proof (shiftr_u32 c 1 ltac:(lia) Hc).
  destruct (Z.testbit c 0); [|assumption].
  apply lxor_u32; [assumption | unfold crc_poly; lia].
Qed.

Lemma crc_table_u32 i : 0 ≤ i < 2^32 → 0 ≤ crc_table i < 2^32.
Proof.
  intros Hi. unfold crc_table. simpl. by do 8 apply crc_bit_u32.
Qed.

Lemma crc_step_u32 c v : 0 ≤ c < 2^32 → 0 ≤ crc_step c v < 2^32.
Proof.
  intros Hc. unfold crc_step. apply lxor_u32; [|by apply shiftr_u32].
  apply crc_table_u32. apply lxor_u32.
  - change 255 with (Z.ones 8). rewrite Z.land_ones by lia.
    pose proof (Z.mod_pos_bound c (2^8) ltac:(lia)). lia.
  - pose proof (Z_of_byte_range v). lia.
Qed.

Lemma crc_fold_u32 p c : 0 ≤ c < 2^32 → 0 ≤ fold_left crc_step p c < 2^32.
Proof.
  revert c. induction p as [|v p IH]; intros c Hc; simpl; [exact Hc|].
  apply IH. by apply crc_step_u32.
Qed.

Lemma crc32_Update_u32 crc p : 0 ≤ crc < 2^32 → 0 ≤ crc32_Update crc p < 2^32.
Proof.
  intros Hc. unfold crc32_Update. apply lxor_u32; [|lia].
  apply crc_fold_u32. apply lxor_u32; lia.
Qed.

(** Feeding a hasher in pieces gives the checksum of the concatenation. *)
Lemma crc32_Update_app crc p q :
  crc32_Update (crc32_Update crc p) q = crc32_Update crc (p ++ q).
Proof.
  unfold crc32_Update. rewrite fold_left_app. f_equal. f_equal.
  rewrite Z.lxor_assoc, Z.lxor_nilpotent, Z.lxor_0_r. reflexivity.
Qed.

(** ** Sorting returns a permutation *)

Lemma sift_left_perm {A} (less : A → A → bool) x rev_pre moved :
  sift_left less x rev_pre moved ≡ₚ x :: rev_pre ++ moved.
Proof.
  revert moved. induction rev_pre as [|y pre IH]; intros moved; [reflexivity|].
  cbn [sift_left]. destruct (less x y).
  - rewrite IH. by rewrite <- Permutation_middle.
  - rewrite rev_append_rev, <- Permutation_middle. by rewrite <- Permutation_rev.
Qed.

Lemma insertion_sort_perm {A} (less : A → A → bool) l : insertion_sort less l ≡ₚ l.
Proof.
  unfold insertion_sort.
  assert (∀ pre, fold_left (λ pre x, sift_left less x (rev pre) []) l pre ≡ₚ pre ++ l) as H.
  { induction l as [|x l IH]; intros pre; simpl.
    - by rewrite app_nil_r.
    - rewrite IH, sift_left_perm, app_nil_r, <- Permutation_rev.
      by rewrite <- Permutation_middle. }
  apply (H []).
Qed.

(** ** SSTable files *)

Module LSMFacts.
Import LSM.

(** The record of one key-value pair, and the body of a file. *)
Definition rec_bytes (kv : string * string) : list ascii :=
  entry_bytes (to_uint16 (len kv.1)) (bytes_of_string kv.1)
              (to_uint16 (len kv.2)) (bytes_of_string kv.2).

Definition encode_all (recs : list (string * string)) : list ascii :=
  concat (map rec_bytes recs).

(** Lengths that fit the two-byte length fields. *)
Definition rec_ok (kv : string * string) : Prop :=
  len kv.1 < 65536 ∧ len kv.2 < 65536.

(** What the scanning loop does with one record. *)
Definition scan_rec (s : scanner) (kv : string * string) : scanner :=
  mkScanner (<[kv.1 := s_offset s]> (s_index s))
            (if s_offset s =? 0 then kv.1 else s_minKey s) kv.1
            (s_offset s + Z.of_nat (length (rec_bytes kv)))
            (crc32_Update (s_hasher s) (rec_bytes kv)).

Definition scanner0 : scanner := mkScanner ∅ EmptyString EmptyString 0 0.

Definition sst_of_records (path : string) (recs : list (string * string))
    (useBloom : bool) : SSTable :=
  let s := fold_left scan_rec recs scanner0 in
  mkSSTable path (s_minKey s) (s_maxKey s) (s_offset s) (s_index s)
            (bloom_if useBloom (dom (s_index s))) (s_hasher s).

Definition sst_file (recs : list (string * string)) : list ascii :=
  encode_all recs ++ put_u32_be (ChecksumIEEE (encode_all recs)).

(** The records [CreateSSTable] writes for [data]. *)
Definition recs_of (data : gmap string string) (keys : list string)
  : list (string * string) :=
  map (λ k, (k, default EmptyString (data !! k))) keys.

Definition records (data : gmap string string) : list (string * string) :=
  recs_of data (sort_Strings (elements (dom data))).

Lemma rec_bytes_length kv :
  Z.of_nat (length (rec_bytes kv)) = 4 + len kv.1 + len kv.2.
Proof.
  unfold rec_bytes, entry_bytes, put_u16_be.
  repeat (rewrite length_app; cbn [length]).
  rewrite !bytes_of_string_length. unfold len. lia.
Qed.

Lemma encode_all_length_ge recs : (4 * length recs ≤ length (encode_all recs))%nat.
Proof.
  induction recs as [|kv recs IH]; [simpl; lia|].
  unfold encode_all in *. cbn [map concat]. rewrite length_app.
  pose proof (rec_bytes_length kv). pose proof (len_nonneg kv.1).
  pose proof (len_nonneg kv.2). cbn [length]. lia.
Qed.

Lemma ReadFull_bytes s tl pos :
  ReadFull (mkFile (bytes_of_string s ++ tl) pos) (len s)
  = Ok (bytes_of_string s, mkFile tl (pos + len s)).
Proof.
  unfold ReadFull. destruct (Z.leb_spec (len s) 0) as [H0|Hpos].
  - assert (s = EmptyString) as ->.
    { destruct s; [reflexivity|]. unfold len in H0. simpl in H0. lia. }
    simpl. do 2 f_equal. f_equal. unfold len. simpl. lia.
  - cbn [rest fpos].
    assert (length (bytes_of_string s) = Z.to_nat (len s)) as Hl
      by (rewrite bytes_of_string_length; unfold len; lia).
    destruct (bytes_of_string s ++ tl) eqn:E.
    { apply (f_equal length) in E. rewrite length_app in E. simpl in E. lia. }
    rewrite <- E. rewrite length_app.
    destruct (Z.ltb_spec (Z.of_nat (length (bytes_of_string s) + length tl)) (len s)); [lia|].
    rewrite <- Hl. by rewrite take_app_length, drop_app_length.
Qed.

Lemma bind_Ok {A B} (a : A) (k : A → result B) : (Ok a ≫= k) = k a.
Proof. reflexivity. Qed.

Lemma bind_Err {A B} e (k : A → result B) : (Err e ≫= k) = Err e.
Proof. reflexivity. Qed.

Lemma Read_u16_be_put n tl pos :
  0 ≤ n < 65536 →
  Read_u16_be (mkFile (put_u16_be n ++ tl) pos) = Ok (n, mkFile tl (pos + 2)).
Proof.
  intros Hn. unfold Read_u16_be, put_u16_be. cbn [rest fpos app].
  by rewrite get_put_u16.
Qed.

Lemma scan_entry_encoded kv tl pos s :
  rec_ok kv →
  scan_entry (mkFile (rec_bytes kv ++ tl) pos) s
  = Ok (mkFile tl (pos + Z.of_nat (length (rec_bytes kv))), scan_rec s kv).
Proof.
  intros [Hk Hv]. rewrite rec_bytes_length. unfold scan_rec.
  destruct kv as [k v]. cbn [fst snd] in *.
  pose proof (len_nonneg k). pose proof (len_nonneg v).
  unfold scan_entry, rec_bytes, entry_bytes. cbn [fst snd].
  unfold to_uint16. rewrite !Z.mod_small by lia.
  rewrite <- !app_assoc.
  rewrite Read_u16_be_put, bind_Ok by lia. cbv beta iota.
  rewrite ReadFull_bytes, bind_Ok. cbv beta iota.
  rewrite Read_u16_be_put, bind_Ok by lia. cbv beta iota.
  rewrite ReadFull_bytes, bind_Ok. cbv beta iota.
  rewrite !string_of_bytes_of_string.
  do 2 f_equal. f_equal. lia.
Qed.

Lemma scan_entries_encoded recs : ∀ fuel tl pos s dataEnd,
  Forall rec_ok recs →
  (length recs < fuel)%nat →
  dataEnd = pos + Z.of_nat (length (encode_all recs)) →
  scan_entries fuel dataEnd (mkFile (encode_all recs ++ tl) pos) s
  = Ok (mkFile tl dataEnd, fold_left scan_rec recs s).
Proof.
  induction recs as [|kv recs IH]; intros fuel tl pos s dataEnd Hok Hfuel ->.
  - destruct fuel; [simpl in Hfuel; lia|].
    cbn [scan_entries fpos]. rewrite Z.geb_leb.
    destruct (Z.leb_spec (pos + Z.of_nat (length (encode_all []))) pos) as [_|Hlt];
      [|simpl in Hlt; lia].
    simpl. do 3 f_equal. lia.
  - destruct fuel; [simpl in Hfuel; lia|].
    inversion Hok as [|? ? Hkv Hrest]; subst.
    assert (encode_all (kv :: recs) = rec_bytes kv ++ encode_all recs) as -> by reflexivity.
    rewrite length_app. pose proof (rec_bytes_length kv).
    pose proof (len_nonneg kv.1). pose proof (len_nonneg kv.2).
    cbn [scan_entries fpos]. rewrite Z.geb_leb.
    match goal with |- context [?a <=? ?b] => destruct (Z.leb_spec a b) as [Hle|_] end;
      [lia|].
    rewrite <- app_assoc, scan_entry_encoded, bind_Ok by assumption. cbv beta iota.
    rewrite (IH fuel tl _ _ (pos + Z.of_nat (length (rec_bytes kv) + length (encode_all recs))));
      [reflexivity | assumption | simpl in Hfuel; lia | lia].
Qed.

Lemma fold_scan_hasher recs s :
  s_hasher (fold_left scan_rec recs s) = crc32_Update (s_hasher s) (encode_all recs).
Proof.
  revert s. induction recs as [|kv recs IH]; intros s.
  - simpl. unfold crc32_Update. simpl.
    by rewrite Z.lxor_assoc, Z.lxor_nilpotent, Z.lxor_0_r.
  - cbn [fold_left]. rewrite IH. unfold encode_all. cbn [map concat scan_rec s_hasher].
    apply crc32_Update_app.
Qed.

Lemma fold_scan_offset recs s :
  s_offset (fold_left scan_rec recs s) = s_offset s + Z.of_nat (length (encode_all recs)).
Proof.
  revert s. induction recs as [|kv recs IH]; intros s.
  - simpl. lia.
  - cbn [fold_left]. rewrite IH. unfold encode_all. cbn [map concat scan_rec s_offset].
    rewrite length_app. lia.
Qed.

Lemma fold_scan_dom recs s :
  dom (s_index (fold_left scan_rec recs s)) = dom (s_index s) ∪ list_to_set recs.*1.
Proof.
  revert s. induction recs as [|kv recs IH]; intros s.
  - simpl. by rewrite union_empty_r_L.
  - cbn [fold_left]. rewrite IH. cbn [scan_rec s_index fmap list_fmap list_to_set].
    rewrite dom_insert_L, (union_comm_L {[kv.1]} (dom (s_index s))).
    by rewrite <- union_assoc_L.
Qed.

(** A file made of well-sized records and their checksum opens, and the
    table is the one the records describe. *)
Lemma OpenSSTable_sst_file (fs : FS) path recs useBloom :
  Forall rec_ok recs →
  fs !! path = Some (sst_file recs) →
  OpenSSTable fs path useBloom = Ok (sst_of_records path recs useBloom).
Proof.
  intros Hok Hfile. unfold OpenSSTable, os_Open, file_size. rewrite Hfile.
  rewrite bind_Ok. cbn [rest]. unfold sst_file.
  erewrite (scan_entries_encoded recs); [|assumption|..].
  - rewrite bind_Ok. cbv beta iota. unfold put_u32_be, Read_u32_be. cbn [rest].
    pose proof (crc32_Update_u32 0 (encode_all recs) ltac:(lia)) as Hr.
    fold (ChecksumIEEE (encode_all recs)) in Hr.
    rewrite get_put_u32, bind_Ok by assumption. cbv beta iota.
    fold scanner0. rewrite fold_scan_hasher. cbn [scanner0 s_hasher].
    fold (ChecksumIEEE (encode_all recs)). rewrite Z.eqb_refl. cbn [negb].
    unfold sst_of_records. cbv zeta. rewrite fold_scan_hasher. reflexivity.
  - pose proof (encode_all_length_ge recs). rewrite length_app. simpl. lia.
  - rewrite length_app. unfold put_u32_be. simpl. lia.
Qed.

Definition scanner_of (w : writer) : scanner :=
  mkScanner (w_index w) (w_minKey w) (w_maxKey w) (w_offset w) (w_hasher w).

Lemma write_entries_spec data keys : ∀ i w,
  0 ≤ i → 0 ≤ w_offset w → (i = 0 ↔ w_offset w = 0) →
  scanner_of (write_entries data i keys w)
  = fold_left scan_rec (recs_of data keys) (scanner_of w)
  ∧ w_file (write_entries data i keys w) = w_file w ++ encode_all (recs_of data keys).
Proof.
  induction keys as [|key keys IH]; intros i w Hi Hoff Hiff.
  - simpl. by rewrite app_nil_r.
  - cbn [write_entries recs_of map fold_left].
    set (kv := (key, default EmptyString (data !! key))).
    assert (scanner_of (write_entry data i key w) = scan_rec (scanner_of w) kv) as Hstep.
    { unfold write_entry, scan_rec, scanner_of, kv, rec_bytes. cbn [fst snd s_offset s_index
        s_minKey s_hasher w_index w_minKey w_maxKey w_offset w_hasher].
      f_equal. destruct (Z.eqb_spec i 0) as [Hi0|Hi0];
        destruct (Z.eqb_spec (w_offset w) 0) as [Ho|Ho]; try reflexivity; tauto. }
    pose proof (rec_bytes_length kv) as Hl.
    pose proof (len_nonneg kv.1). pose proof (len_nonneg kv.2).
    assert (w_offset (write_entry data i key w)
            = w_offset w + Z.of_nat (length (rec_bytes kv))) as Hoff' by reflexivity.
    assert (w_file (write_entry data i key w) = w_file w ++ rec_bytes kv) as Hfile'
      by reflexivity.
    destruct (IH (i + 1) (write_entry data i key w)) as [IH1 IH2]; [lia..|].
    fold (recs_of data keys). rewrite IH1, IH2, Hstep, Hfile'. split; [reflexivity|].
    by rewrite <- app_assoc.
Qed.

Lemma recs_of_keys data keys : (recs_of data keys).*1 = keys.
Proof.
  induction keys as [|k keys IH]; [reflexivity|].
  cbn [recs_of map fmap list_fmap fst]. f_equal. exact IH.
Qed.

Lemma records_keys data : list_to_set (records data).*1 = dom data.
Proof.
  unfold records. rewrite recs_of_keys. unfold sort_Strings.
  rewrite (list_to_set_perm_L _ _ (insertion_sort_perm str_lt _)).
  apply list_to_set_elements_L.
Qed.

(** [CreateSSTable] writes the records of [data] with their checksum and
    returns the table they describe. *)
(** *** The Bloom filter of a key set

    The Go loops [for k := range data { bf.Add(k) }] visit the keys in the
    unspecified order of a map iteration.  [Add] only sets bits, so the
    filter built does not depend on that order. *)

Lemma insert_true_comm (bits : list bool) i j :
  <[i := true]> (<[j := true]> bits) = <[j := true]> (<[i := true]> bits).
Proof.
  destruct (decide (i = j)) as [->|Hne]; [reflexivity|]. by apply list_insert_insert_ne.
Qed.

Lemma BloomFilter_Add_size bf k : bf_size (BloomFilter_.Add bf k) = bf_size bf.
Proof. reflexivity. Qed.

Lemma BloomFilter_Add_comm bf k1 k2 :
  BloomFilter_.Add (BloomFilter_.Add bf k1) k2 = BloomFilter_.Add (BloomFilter_.Add bf k2) k1.
Proof.
  unfold BloomFilter_.Add, BloomFilter_.getHashes.
  cbn [fold_left bf_size bitset]. f_equal.
  set (a1 := Z.to_nat (fnv32a (bytes_of_string k1) mod bf_size bf)).
  set (a2 := Z.to_nat (Z.shiftr (fnv32a (bytes_of_string k1)) 16 mod bf_size bf)).
  set (b1 := Z.to_nat (fnv32a (bytes_of_string k2) mod bf_size bf)).
  set (b2 := Z.to_nat (Z.shiftr (fnv32a (bytes_of_string k2)) 16 mod bf_size bf)).
  rewrite (insert_true_comm _ b1 a2), (insert_true_comm _ b1 a1).
  rewrite (insert_true_comm _ b2 a2), (insert_true_comm _ b2 a1).
  reflexivity.
Qed.

Lemma fold_Add_perm ks1 ks2 :
  ks1 ≡ₚ ks2 → ∀ bf, fold_left BloomFilter_.Add ks1 bf = fold_left BloomFilter_.Add ks2 bf.
Proof.
  induction 1 as [|k ks1 ks2 _ IH|k1 k2 ks|ks1 ks2 ks3 _ IH1 _ IH2]; intros bf.
  - reflexivity.
  - cbn [fold_left]. apply IH.
  - cbn [fold_left]. by rewrite BloomFilter_Add_comm.
  - by rewrite IH1.
Qed.

(** Whatever the order [ks] in which the loop meets the keys, it builds
    [bloom_of_keys]. *)
Lemma bloom_of_keys_any_order (keys : gset string) ks :
  ks ≡ₚ elements keys →
  fold_left BloomFilter_.Add ks (NewBloomFilter 1000) = bloom_of_keys keys.
Proof. intros Hp. unfold bloom_of_keys. by apply fold_Add_perm. Qed.

(** A key that was added is reported as possibly present. *)
Lemma MightContain_Add bf k :
  0 < bf_size bf → length (bitset bf) = Z.to_nat (bf_size bf) →
  BloomFilter_.MightContain (BloomFilter_.Add bf k) k = true.
Proof.
  intros Hpos Hlen. unfold BloomFilter_.MightContain, BloomFilter_.Add.
  unfold BloomFilter_.getHashes. cbn [fold_left bf_size bitset forallb].
  set (h := fnv32a (bytes_of_string k)).
  assert (Z.to_nat (h mod bf_size bf) < length (bitset bf))%nat as H1.
  { rewrite Hlen. pose proof (Z.mod_pos_bound h (bf_size bf) Hpos). lia. }
  assert (Z.to_nat (Z.shiftr h 16 mod bf_size bf) < length (bitset bf))%nat as H2.
  { rewrite Hlen. pose proof (Z.mod_pos_bound (Z.shiftr h 16) (bf_size bf) Hpos). lia. }
  rewrite insert_true_comm at 1.
  rewrite !list_lookup_insert_eq by (by rewrite ?length_insert).
  reflexivity.
Qed.

Lemma CreateSSTable_spec (fs : FS) path data ct useBloom :
  CreateSSTable fs path data ct useBloom
  = (Ok (sst_of_records path (records data) useBloom),
     <[path := sst_file (records data)]> fs).
Proof.
  unfold CreateSSTable. cbv zeta.
  destruct (write_entries_spec data (sort_Strings (elements (dom data))) 0
              (mkWriter ∅ EmptyString EmptyString 0 0 []))
    as [Hs Hf]; [lia | simpl; lia | simpl; tauto |].
  fold (records data) in Hs, Hf. change (scanner_of _) with scanner0 in Hs at 2.
  set (w := write_entries data 0 _ _) in *.
  assert (w_hasher w = ChecksumIEEE (encode_all (records data))) as Hh.
  { change (w_hasher w) with (s_hasher (scanner_of w)). rewrite Hs.
    rewrite fold_scan_hasher. reflexivity. }
  f_equal.
  - f_equal. unfold sst_of_records. cbv zeta. rewrite <- Hs.
    cbn [scanner_of s_minKey s_maxKey s_offset s_index s_hasher].
    f_equal. f_equal.
    change (w_index w) with (s_index (scanner_of w)). rewrite Hs.
    rewrite fold_scan_dom, records_keys. cbn [scanner0 s_index].
    by rewrite dom_empty_L, union_empty_l_L.
  - f_equal. rewrite Hf, Hh. reflexivity.
Qed.

(** C8, counterexample: a value of 65536 bytes is written with length
    field 0, and the file so created does not open. *)
Definition long_value : string := string_of_bytes (replicate (Z.to_nat 65536) (byte_of_Z 255)).

Lemma C8_long_value_does_not_open :
  let '(r, fs) := CreateSSTable ∅ "t.sst" {[ "k"%string := long_value ]} "none" false in
  is_ok r = true ∧ is_ok (OpenSSTable fs "t.sst" false) = false.
Proof. vm_compute. split; reflexivity. Qed.

(** C8 (amended): for every key-value map whose keys and values are shorter
    than 65536 bytes, creating an SSTable file and opening it succeeds and
    yields the very table creation returned: the same min key, max key,
    index, key set (Bloom filter), size and checksum. *)
Theorem C8_create_then_open (fs : FS) path (data : gmap string string) ct useBloom :
  (∀ k v, data !! k = Some v → len k < 65536 ∧ len v < 65536) →
  ∃ sst, (CreateSSTable fs path data ct useBloom).1 = Ok sst
         ∧ OpenSSTable (CreateSSTable fs path data ct useBloom).2 path useBloom = Ok sst.
Proof.
  intros Hsmall. rewrite CreateSSTable_spec. cbn [fst snd].
  eexists. split; [reflexivity|].
  apply OpenSSTable_sst_file; [|by rewrite lookup_insert_eq].
  unfold records, recs_of. apply Forall_fmap, Forall_forall.
  intros k Hk. unfold rec_ok, compose. cbn [fst snd].
  assert (k ∈ dom data) as Hdom.
  { apply elem_of_elements. by rewrite <- (insertion_sort_perm str_lt). }
  apply elem_of_dom in Hdom as [v Hv]. rewrite Hv. cbn [default]. by apply Hsmall.
Qed.

Lemma C8_create_then_open_witness :
  ∃ sst, (CreateSSTable ∅ "t.sst" {[ "a"%string := "1"%string ]} "none" true).1 = Ok sst
         ∧ OpenSSTable (CreateSSTable ∅ "t.sst" {[ "a"%string := "1"%string ]} "none" true).2
                       "t.sst" true = Ok sst.
Proof.
  apply (C8_create_then_open ∅ "t.sst" {[ "a"%string := "1"%string ]} "none" true).
  intros k v Hkv. apply lookup_singleton_Some in Hkv as [<- <-]. vm_compute. done.
Defined.

(** *** What a file that opens consists of *)

Lemma put_get_u32 b3 b2 b1 b0 : put_u32_be (get_u32_be b3 b2 b1 b0) = [b3; b2; b1; b0].
Proof.
  unfold put_u32_be, get_u32_be.
  pose proof (Z_of_byte_range b3). pose proof (Z_of_byte_range b2).
  pose proof (Z_of_byte_range b1). pose proof (Z_of_byte_range b0).
  set (x3 := Z_of_byte b3) in *. set (x2 := Z_of_byte b2) in *.
  set (x1 := Z_of_byte b1) in *. set (x0 := Z_of_byte b0) in *.
  change (2^24) with (256 * 256 * 256). change (2^16) with (256 * 256).
  change (2^8) with 256.
  assert ((((x3 * 256 + x2) * 256 + x1) * 256 + x0) / 256 = (x3 * 256 + x2) * 256 + x1) as E1.
  { rewrite Z.div_add_l by lia. rewrite (Z.div_small x0) by lia. lia. }
  assert (((x3 * 256 + x2) * 256 + x1) / 256 = x3 * 256 + x2) as E2.
  { rewrite Z.div_add_l by lia. rewrite (Z.div_small x1) by lia. lia. }
  assert ((x3 * 256 + x2) / 256 = x3) as E3.
  { rewrite Z.div_add_l by lia. rewrite (Z.div_small x2) by lia. lia. }
  assert (∀ hi lo b, Z_of_byte b = lo → byte_of_Z (hi * 256 + lo) = b) as Hb.
  { intros hi lo b <-. unfold byte_of_Z. rewrite Z.add_comm, Z.mod_add by lia.
    apply byte_of_Z_of_byte. }
  rewrite <- !Z.div_div by lia. rewrite E1, E2, E3.
  f_equal; [|f_equal; [|f_equal; [|f_equal]]].
  - apply byte_of_Z_of_byte.
  - by apply Hb.
  - by apply Hb.
  - by apply Hb.
Qed.

Lemma len_string_of_bytes bs : len (string_of_bytes bs) = Z.of_nat (length bs).
Proof. rewrite <- len_bytes. by rewrite bytes_of_string_of_bytes. Qed.

Lemma Read_u16_be_inv f n f' :
  Read_u16_be f = Ok (n, f') →
  rest f = put_u16_be n ++ rest f' ∧ fpos f' = fpos f + 2 ∧ 0 ≤ n < 65536.
Proof.
  unfold Read_u16_be. destruct (rest f) as [|b1 [|b0 tl]]; intros [=]; subst.
  cbn [rest fpos]. rewrite put_get_u16.
  pose proof (get_u16_be_range b1 b0). split_and!; [reflexivity..|lia|lia].
Qed.

Lemma ReadFull_inv f n bs f' :
  0 ≤ n → ReadFull f n = Ok (bs, f') →
  rest f = bs ++ rest f' ∧ fpos f' = fpos f + n ∧ Z.of_nat (length bs) = n.
Proof.
  intros Hn. unfold ReadFull. destruct (Z.leb_spec n 0).
  - intros [=]; subst. split_and!; [reflexivity | lia | simpl; lia].
  - destruct (rest f) as [|b tl] eqn:E; [discriminate|].
    destruct (Z.ltb_spec (Z.of_nat (length (b :: tl))) n); [discriminate|].
    intros [=]; subst. cbn [rest fpos].
    rewrite take_drop, length_take. split_and!; [reflexivity..|lia].
Qed.

Lemma scan_entry_inv f s f' s' :
  scan_entry f s = Ok (f', s') →
  ∃ kv, rec_ok kv ∧ rest f = rec_bytes kv ++ rest f'
        ∧ fpos f' = fpos f + Z.of_nat (length (rec_bytes kv)) ∧ s' = scan_rec s kv.
Proof.
  unfold scan_entry. intros H.
  destruct (Read_u16_be f) as [[keyLen f1]|] eqn:E1; [|discriminate].
  rewrite bind_Ok in H. cbv beta iota in H.
  apply Read_u16_be_inv in E1 as (R1 & P1 & Hk).
  destruct (ReadFull f1 keyLen) as [[keyBytes f2]|] eqn:E2; [|discriminate].
  rewrite bind_Ok in H. cbv beta iota in H.
  apply ReadFull_inv in E2 as (R2 & P2 & L2); [|lia].
  destruct (Read_u16_be f2) as [[valLen f3]|] eqn:E3; [|discriminate].
  rewrite bind_Ok in H. cbv beta iota in H.
  apply Read_u16_be_inv in E3 as (R3 & P3 & Hv).
  destruct (ReadFull f3 valLen) as [[valBytes f4]|] eqn:E4; [|discriminate].
  rewrite bind_Ok in H. cbv beta iota in H.
  apply ReadFull_inv in E4 as (R4 & P4 & L4); [|lia].
  inversion H; subst f' s'. clear H.
  exists (string_of_bytes keyBytes, string_of_bytes valBytes).
  assert (rec_bytes (string_of_bytes keyBytes, string_of_bytes valBytes)
          = entry_bytes keyLen keyBytes valLen valBytes) as Hrec.
  { unfold rec_bytes. cbn [fst snd]. rewrite !len_string_of_bytes, !bytes_of_string_of_bytes.
    unfold to_uint16. rewrite L2, L4, !Z.mod_small by lia. reflexivity. }
  split_and!.
  - unfold rec_ok. cbn [fst snd]. rewrite !len_string_of_bytes. lia.
  - rewrite Hrec. unfold entry_bytes. rewrite R1, R2, R3, R4.
    by rewrite <- !app_assoc.
  - rewrite Hrec. unfold entry_bytes, put_u16_be.
    repeat (rewrite length_app; cbn [length]). lia.
  - unfold scan_rec. rewrite Hrec. reflexivity.
Qed.

Lemma scan_entries_inv fuel : ∀ dataEnd f s f' s',
  scan_entries fuel dataEnd f s = Ok (f', s') →
  ∃ recs, Forall rec_ok recs ∧ rest f = encode_all recs ++ rest f'
          ∧ fpos f' = fpos f + Z.of_nat (length (encode_all recs))
          ∧ s' = fold_left scan_rec recs s ∧ dataEnd ≤ fpos f'.
Proof.
  induction fuel as [|fuel IH]; intros dataEnd f s f' s' H; [discriminate|].
  cbn [scan_entries] in H. rewrite Z.geb_leb in H.
  destruct (Z.leb_spec dataEnd (fpos f)).
  - inversion H; subst. exists []. split_and!; [constructor | reflexivity | simpl; lia
      | reflexivity | assumption].
  - destruct (scan_entry f s) as [[f1 s1]|] eqn:E; [|discriminate].
    rewrite bind_Ok in H. cbv beta iota in H.
    apply scan_entry_inv in E as (kv & Hkv & R & P & ->).
    apply IH in H as (recs & Hok & R' & P' & -> & Hend).
    exists (kv :: recs).
    assert (encode_all (kv :: recs) = rec_bytes kv ++ encode_all recs) as -> by reflexivity.
    split_and!; [by constructor | by rewrite R, R', app_assoc
      | rewrite length_app; lia | reflexivity | assumption].
Qed.

(** A file opens only if it is a sequence of well-sized records followed
    by their checksum, and the table returned is the one they describe. *)
Lemma OpenSSTable_inv (fs : FS) path useBloom sst :
  OpenSSTable fs path useBloom = Ok sst →
  ∃ recs, Forall rec_ok recs ∧ fs !! path = Some (sst_file recs)
          ∧ sst = sst_of_records path recs useBloom.
Proof.
  unfold OpenSSTable, os_Open, file_size. intros H.
  destruct (fs !! path) as [content|] eqn:Hfile; [|discriminate].
  rewrite bind_Ok in H. cbn [rest] in H.
  destruct (scan_entries _ _ _ _) as [[f' s]|] eqn:E; [|discriminate].
  rewrite bind_Ok in H. cbv beta iota in H.
  apply scan_entries_inv in E as (recs & Hok & R & P & -> & Hend).
  cbn [rest fpos] in R, P.
  destruct (Read_u32_be f') as [[fileChecksum f'']|] eqn:E32; [|discriminate].
  rewrite bind_Ok in H. cbv beta iota in H.
  unfold Read_u32_be in E32.
  destruct (rest f') as [|b3 [|b2 [|b1 [|b0 tl]]]] eqn:Erest; try discriminate.
  inversion E32; subst fileChecksum f''. clear E32.
  fold scanner0 in H. rewrite fold_scan_hasher in H. cbn [scanner0 s_hasher] in H.
  fold (ChecksumIEEE (encode_all recs)) in H.
  destruct (Z.eqb_spec (ChecksumIEEE (encode_all recs)) (get_u32_be b3 b2 b1 b0)) as [Hc|];
    [|discriminate].
  cbn [negb] in H. inversion H; subst sst. clear H.
  assert (tl = []) as ->.
  { apply (f_equal (@length ascii)) in R. rewrite length_app in R. cbn [length] in R.
    destruct tl; [reflexivity|]. cbn [length] in R. lia. }
  exists recs. split_and!; [assumption | |].
  - unfold sst_file. by rewrite R, Hc, put_get_u32.
  - unfold sst_of_records. cbv zeta. fold scanner0.
    rewrite fold_scan_hasher. cbn [scanner0 s_hasher].
    fold (ChecksumIEEE (encode_all recs)). by rewrite Hc.
Qed.

(** ** The memtable *)

(** C9: an insert that brings the byte counter to exactly the cap succeeds,
    and the next insert of a pair of positive size fails with the
    memtable-full error (the sizes being within the range of [int64]). *)
Theorem C9_insert_at_cap (m : MemTable) key value key' value' :
  0 ≤ size m →
  size m + (len key + len value) = maxSize m →
  0 < len key' + len value' →
  maxSize m + (len key' + len value') ≤ max_int64 →
  (MemTable_.Insert m key value).1 = Ok tt
  ∧ size (MemTable_.Insert m key value).2 = maxSize m
  ∧ table (MemTable_.Insert m key value).2 !! key = Some value
  ∧ (MemTable_.Insert (MemTable_.Insert m key value).2 key' value').1
    = Err ErrMemTableFull.
Proof.
  intros Hsize Hcap Hpos Hmax.
  pose proof (len_nonneg key). pose proof (len_nonneg value).
  pose proof (len_nonneg key'). pose proof (len_nonneg value').
  unfold max_int64 in Hmax.
  assert (MemTable_.Insert m key value
          = (Ok tt, mkMemTable (<[key := value]> (table m)) (maxSize m) (maxSize m))) as ->.
  { unfold MemTable_.Insert. cbv zeta.
    rewrite (wrap_int64_small (len key + len value)) by (unfold max_int64; lia).
    rewrite (wrap_int64_small (size m + _)) by (unfold max_int64; lia).
    rewrite Hcap. destruct (Z.gtb_spec (maxSize m) (maxSize m)); [lia|]. reflexivity. }
  cbn [fst snd size table]. repeat split; [by rewrite lookup_insert_eq|].
  unfold MemTable_.Insert. cbv zeta. cbn [size maxSize].
  rewrite (wrap_int64_small (len key' + len value')) by (unfold max_int64; lia).
  rewrite (wrap_int64_small (maxSize m + _)) by (unfold max_int64; lia).
  destruct (Z.gtb_spec (maxSize m + (len key' + len value')) (maxSize m)); [reflexivity|lia].
Qed.

Lemma C9_insert_at_cap_witness :
  (MemTable_.Insert (NewMemTable 4) "ab" "cd").1 = Ok tt
  ∧ size (MemTable_.Insert (NewMemTable 4) "ab" "cd").2 = maxSize (NewMemTable 4)
  ∧ table (MemTable_.Insert (NewMemTable 4) "ab" "cd").2 !! "ab"%string = Some "cd"%string
  ∧ (MemTable_.Insert (MemTable_.Insert (NewMemTable 4) "ab" "cd").2 "e" "").1
    = Err ErrMemTableFull.
Proof.
  apply (C9_insert_at_cap (NewMemTable 4) "ab" "cd" "e" ""); vm_compute; done.
Defined.

(** ** Flush *)

Lemma elem_of_records (data : gmap string string) k v :
  (k, v) ∈ records data ↔ data !! k = Some v.
Proof.
  unfold records, recs_of. rewrite list_elem_of_In, in_map_iff. split.
  - intros (k' & [= <- <-] & Hin).
    apply list_elem_of_In in Hin. unfold sort_Strings in Hin.
    rewrite (insertion_sort_perm str_lt) in Hin.
    apply elem_of_elements, elem_of_dom in Hin as [v Hv]. by rewrite Hv.
  - intros Hkv. exists k. rewrite Hkv. split; [reflexivity|].
    apply list_elem_of_In. unfold sort_Strings. rewrite (insertion_sort_perm str_lt).
    apply elem_of_elements, elem_of_dom. by eexists.
Qed.

Lemma sst_of_records_index_dom path (data : gmap string string) useBloom :
  dom (index (sst_of_records path (records data) useBloom)) = dom data.
Proof.
  unfold sst_of_records. cbv zeta. cbn [index].
  rewrite fold_scan_dom, records_keys. cbn [scanner0 s_index].
  by rewrite dom_empty_L, union_empty_l_L.
Qed.

Lemma WAL_Flush_other (fs : FS) w path :
  path ≠ wal_path w → (WAL_.Flush fs w).1 !! path = fs !! path.
Proof.
  intros Hne. unfold WAL_.Flush. cbn [fst].
  generalize (walCh w) as es. intros es. revert fs.
  induction es as [|e es IH]; intros fs; [reflexivity|].
  cbn [fold_left]. rewrite IH. unfold WAL_.file_Write. by rewrite lookup_insert_ne.
Qed.

(** The outcome of a flush of a non-empty memtable. *)
Lemma flushMemTable_spec (fs : FS) l now level0 higher :
  levels l = level0 :: higher →
  size (memTable l) ≠ 0 →
  let data := (MemTable_.Swap (memTable l)).1 in
  let path := sst_path (FilePath (config l)) now in
  let sst := sst_of_records path (records data) (UseBloomFilter (config l)) in
  let fs1 := <[path := sst_file (records data)]> fs in
  LSMTree_.flushMemTable fs l now
  = (Ok tt, <[wal_path (wal l) := []]> (WAL_.Flush fs1 (wal l)).1,
     mkLSMTree (config l) (NewMemTable (MemTableSize (config l)))
               (mkWAL (wal_path (wal l)) (syncWrites (wal l)) [] 0)
               (sort_by_minKey (level0 ++ [sst]) :: higher) (cache l) (metrics l)).
Proof.
  intros Hlv Hsize. cbv zeta. unfold LSMTree_.flushMemTable, MemTable_.Size.
  destruct (Z.eqb_spec (size (memTable l)) 0) as [|_]; [contradiction|].
  cbn [MemTable_.Swap fst]. cbv zeta. cbn [set_memTable config levels].
  rewrite CreateSSTable_spec, Hlv. reflexivity.
Qed.

(** C10: the SSTable a memtable flush produces holds no tombstone record.
    The flushed snapshot is the memtable without its tombstone entries; the
    file written holds exactly the records of the snapshot, none of which
    has the tombstone as its value; a key whose memtable entry is the
    tombstone is absent from the table's index, from the fresh memtable and
    from the truncated log, so that delete is persisted nowhere. *)
Theorem C10_flush_drops_tombstones (fs : FS) l now level0 higher :
  levels l = level0 :: higher →
  size (memTable l) ≠ 0 →
  wal_path (wal l) ≠ sst_path (FilePath (config l)) now →
  ∃ fs' l' sst recs,
    LSMTree_.flushMemTable fs l now = (Ok tt, fs', l')
    ∧ levels l' = sort_by_minKey (level0 ++ [sst]) :: higher
    ∧ filePath sst = sst_path (FilePath (config l)) now
    ∧ fs' !! filePath sst = Some (sst_file recs)
    ∧ (∀ k v, (k, v) ∈ recs ↔ table (memTable l) !! k = Some v ∧ v ≠ tombstone)
    ∧ (∀ k, table (memTable l) !! k = Some tombstone → index sst !! k = None)
    ∧ table (memTable l') = ∅
    ∧ fs' !! wal_path (wal l) = Some [].
Proof.
  intros Hlv Hsize Hpath.
  pose proof (flushMemTable_spec fs l now level0 higher Hlv Hsize) as Hflush.
  cbv zeta in Hflush. rewrite Hflush. clear Hflush.
  set (data := (MemTable_.Swap (memTable l)).1).
  do 2 eexists. exists (sst_of_records (sst_path (FilePath (config l)) now) (records data)
                                       (UseBloomFilter (config l))), (records data).
  split; [reflexivity|]. cbn [levels memTable table NewMemTable].
  split_and!; try reflexivity.
  - rewrite lookup_insert_ne by done. cbn [sst_of_records filePath].
    rewrite WAL_Flush_other by done. by rewrite lookup_insert_eq.
  - intros k v. rewrite elem_of_records. unfold data. cbn [MemTable_.Swap fst].
    by rewrite map_lookup_filter_Some.
  - intros k Hk. apply not_elem_of_dom. rewrite sst_of_records_index_dom.
    apply not_elem_of_dom. unfold data. cbn [MemTable_.Swap fst].
    apply map_lookup_filter_None. right. intros v Hv Hne. cbn in Hne. congruence.
  - by rewrite lookup_insert_eq.
Qed.

(** A tree that holds ["a"] and has seen a delete of ["b"], on an empty
    data directory. *)
Definition demo_config : Config := mkConfig "db" 64 640 false "none" false.

Definition demo_state : FS * LSMTree :=
  let '(l, fs) := NewLSMTree_empty ∅ demo_config in
  let '(_, fs, l) := LSMTree_.Insert fs l "a" "1" 0 in
  let '(_, l) := LSMTree_.Delete l "b" in
  (fs, l).

Lemma C10_flush_drops_tombstones_witness :
  ∃ fs' l' sst recs,
    LSMTree_.flushMemTable demo_state.1 demo_state.2 1 = (Ok tt, fs', l')
    ∧ levels l' = sort_by_minKey ([] ++ [sst]) :: []
    ∧ filePath sst = sst_path (FilePath (config demo_state.2)) 1
    ∧ fs' !! filePath sst = Some (sst_file recs)
    ∧ (∀ k v, (k, v) ∈ recs ↔ table (memTable demo_state.2) !! k = Some v ∧ v ≠ tombstone)
    ∧ (∀ k, table (memTable demo_state.2) !! k = Some tombstone → index sst !! k = None)
    ∧ table (memTable l') = ∅
    ∧ fs' !! wal_path (wal demo_state.2) = Some [].
Proof.
  apply (C10_flush_drops_tombstones demo_state.1 demo_state.2 1 [] []).
  - reflexivity.
  - vm_compute. discriminate.
  - vm_compute. discriminate.
Defined.

(** ** The write-ahead log *)

Definition wal_bytes (es : list WalEntry) : list ascii :=
  concat (map WAL_.record_bytes es).

(** Entries whose fields fit the record: an op code of one byte and
    lengths of two bytes. *)
Definition entry_ok (e : WalEntry) : Prop :=
  0 ≤ Op e < 256 ∧ len (Key e) < 65536 ∧ len (Value e) < 65536.

Global Instance entry_ok_dec e : Decision (entry_ok e).
Proof. unfold entry_ok. apply _. Defined.

Definition apply_entry (m : MemTable) (e : WalEntry) : MemTable :=
  apply_wal_record (Op e) (Key e) (Value e) m.

Lemma record_bytes_length e :
  Z.of_nat (length (WAL_.record_bytes e)) = 5 + len (Key e) + len (Value e).
Proof.
  unfold WAL_.record_bytes, put_u16_be.
  repeat (rewrite length_app; cbn [length]).
  rewrite !bytes_of_string_length. unfold len. lia.
Qed.

Lemma wal_bytes_length_ge es : (5 * length es ≤ length (wal_bytes es))%nat.
Proof.
  induction es as [|e es IH]; [simpl; lia|].
  unfold wal_bytes in *. cbn [map concat]. rewrite length_app.
  pose proof (record_bytes_length e). pose proof (len_nonneg (Key e)).
  pose proof (len_nonneg (Value e)). cbn [length]. lia.
Qed.

Lemma read_wal_record_encoded e tl pos :
  entry_ok e →
  read_wal_record (mkFile (WAL_.record_bytes e ++ tl) pos)
  = Ok (Op e, Key e, Value e, mkFile tl (pos + Z.of_nat (length (WAL_.record_bytes e)))).
Proof.
  intros (Hop & Hk & Hv). rewrite record_bytes_length.
  pose proof (len_nonneg (Key e)). pose proof (len_nonneg (Value e)).
  unfold read_wal_record, WAL_.record_bytes.
  unfold to_uint16. rewrite !Z.mod_small by lia.
  rewrite <- !app_assoc. cbn [app].
  unfold Read_byte. cbn [rest fpos]. rewrite bind_Ok. cbv beta iota.
  rewrite Z_of_byte_of_Z, Z.mod_small by lia.
  rewrite Read_u16_be_put, bind_Ok by lia. cbv beta iota.
  rewrite ReadFull_bytes, bind_Ok. cbv beta iota.
  rewrite Read_u16_be_put, bind_Ok by lia. cbv beta iota.
  rewrite ReadFull_bytes, bind_Ok. cbv beta iota.
  rewrite !string_of_bytes_of_string. do 2 f_equal. f_equal. lia.
Qed.

Lemma replay_encoded es : ∀ fuel pos m,
  Forall entry_ok es →
  (length es < fuel)%nat →
  replay fuel (mkFile (wal_bytes es) pos) m = (Ok tt, fold_left apply_entry es m).
Proof.
  induction es as [|e es IH]; intros fuel pos m Hok Hfuel.
  - destruct fuel; [simpl in Hfuel; lia|]. reflexivity.
  - destruct fuel; [simpl in Hfuel; lia|].
    inversion Hok as [|? ? He Hes]; subst.
    assert (wal_bytes (e :: es) = WAL_.record_bytes e ++ wal_bytes es) as -> by reflexivity.
    cbn [replay]. rewrite read_wal_record_encoded by assumption.
    rewrite IH; [reflexivity | assumption | simpl in Hfuel; lia].
Qed.

Lemma WAL_Flush_file (fs : FS) w old :
  fs !! wal_path w = Some old →
  (WAL_.Flush fs w).1 !! wal_path w = Some (old ++ wal_bytes (walCh w)).
Proof.
  unfold WAL_.Flush. cbn [fst]. generalize (walCh w) as es. intros es.
  revert fs old. induction es as [|e es IH]; intros fs old Hold.
  - simpl. by rewrite app_nil_r.
  - cbn [fold_left]. rewrite (IH _ (old ++ WAL_.record_bytes e)).
    + unfold wal_bytes. cbn [map concat]. by rewrite app_assoc.
    + unfold WAL_.file_Write. rewrite Hold. cbn [default]. by rewrite lookup_insert_eq.
Qed.

Lemma wal_bytes_app es1 es2 : wal_bytes (es1 ++ es2) = wal_bytes es1 ++ wal_bytes es2.
Proof. unfold wal_bytes. by rewrite map_app, concat_app. Qed.

(** C6, counterexample: the record the worker writes for the delete of
    ["k"] goes on for two bytes after the key. *)
Lemma C6_delete_record_longer :
  let '(_, l) := LSMTree_.Delete demo_state.2 "k" in
  let e := mkWalEntry 1 "k" "" in
  last (walCh (wal l)) = Some e
  ∧ WAL_.record_bytes e
    = [byte_of_Z 1] ++ put_u16_be 1 ++ bytes_of_string "k" ++ [byte_of_Z 0; byte_of_Z 0]
  ∧ WAL_.record_bytes e ≠ [byte_of_Z 1] ++ put_u16_be 1 ++ bytes_of_string "k".
Proof. vm_compute. split_and!; [reflexivity | reflexivity | discriminate]. Qed.

(** C6 (amended): every record the worker writes consists of a 1-byte op
    code, a big-endian 2-byte key length, the key bytes, a big-endian 2-byte
    value length and the value bytes, for insert and delete records alike (a
    delete record carries the value length 0 and no value bytes); replay
    parses a log of such records under that same format and applies the
    entries in order. *)
Theorem C6_wal_format_and_replay (fs : FS) (w : WAL) (es0 : list WalEntry) (m : MemTable) :
  Forall entry_ok es0 →
  Forall entry_ok (walCh w) →
  fs !! wal_path w = Some (wal_bytes es0) →
  (WAL_.Flush fs w).1 !! wal_path w = Some (wal_bytes (es0 ++ walCh w))
  ∧ (∀ e, WAL_.record_bytes e
          = byte_of_Z (Op e) :: put_u16_be (to_uint16 (len (Key e)))
            ++ bytes_of_string (Key e)
            ++ put_u16_be (to_uint16 (len (Value e))) ++ bytes_of_string (Value e))
  ∧ (∀ e, Value e = EmptyString →
          WAL_.record_bytes e
          = byte_of_Z (Op e) :: put_u16_be (to_uint16 (len (Key e)))
            ++ bytes_of_string (Key e) ++ [byte_of_Z 0; byte_of_Z 0])
  ∧ RecoverFromWAL (WAL_.Flush fs w).1 (wal_path w) m
    = (Ok tt, fold_left apply_entry (es0 ++ walCh w) m).
Proof.
  intros Hok0 Hok Hfile.
  pose proof (WAL_Flush_file fs w _ Hfile) as Hflush.
  rewrite <- wal_bytes_app in Hflush.
  split_and!; [exact Hflush | reflexivity | |].
  { intros e He. unfold WAL_.record_bytes. rewrite He. reflexivity. }
  unfold RecoverFromWAL, os_Open, file_size. rewrite Hflush.
  assert (Forall entry_ok (es0 ++ walCh w)) as Hall by (by apply Forall_app).
  destruct (Z.eqb_spec (Z.of_nat (length (wal_bytes (es0 ++ walCh w)))) 0) as [H0|_].
  - pose proof (wal_bytes_length_ge (es0 ++ walCh w)).
    destruct (es0 ++ walCh w); [reflexivity | simpl in *; lia].
  - cbn [rest]. apply replay_encoded; [assumption|].
    pose proof (wal_bytes_length_ge (es0 ++ walCh w)). lia.
Qed.

Lemma C6_wal_format_and_replay_witness :
  let fs := demo_state.1 in
  let w := wal demo_state.2 in
  let m := NewMemTable 64 in
  (WAL_.Flush fs w).1 !! wal_path w = Some (wal_bytes ([] ++ walCh w))
  ∧ (∀ e, WAL_.record_bytes e
          = byte_of_Z (Op e) :: put_u16_be (to_uint16 (len (Key e)))
            ++ bytes_of_string (Key e)
            ++ put_u16_be (to_uint16 (len (Value e))) ++ bytes_of_string (Value e))
  ∧ (∀ e, Value e = EmptyString →
          WAL_.record_bytes e
          = byte_of_Z (Op e) :: put_u16_be (to_uint16 (len (Key e)))
            ++ bytes_of_string (Key e) ++ [byte_of_Z 0; byte_of_Z 0])
  ∧ RecoverFromWAL (WAL_.Flush fs w).1 (wal_path w) m
    = (Ok tt, fold_left apply_entry ([] ++ walCh w) m).
Proof.
  apply (C6_wal_format_and_replay demo_state.1 (wal demo_state.2) [] (NewMemTable 64)).
  - constructor.
  - apply (bool_decide_unpack _). vm_compute. exact I.
  - reflexivity.
Defined.

(** ** Reads and writes of the LSM tree *)

Lemma MemTable_Get_tombstone m k :
  table m !! k = Some tombstone → MemTable_.Get m k = (EmptyString, false).
Proof. intros H. unfold MemTable_.Get. rewrite H. reflexivity. Qed.

Lemma MemTable_Get_live m k v :
  table m !! k = Some v → v ≠ tombstone → MemTable_.Get m k = (v, true).
Proof.
  intros H Hv. unfold MemTable_.Get. rewrite H. unfold str_eqb.
  by rewrite bool_decide_eq_false_2.
Qed.

(** A tombstone in the memtable sends [Get] on to the block cache: a cached
    value is returned. *)
Lemma Get_tombstone_cached (fs : FS) l k e :
  table (memTable l) !! k = Some tombstone →
  Cache_.lookup (cache l) k = Some e →
  (LSMTree_.Get fs l k).1 = Ok (ce_value e).
Proof.
  intros Hm Hc. unfold LSMTree_.Get. rewrite MemTable_Get_tombstone by assumption.
  unfold Cache_.Get. rewrite Hc. reflexivity.
Qed.

(** ... and, on a cache miss, on to the SSTable levels. *)
Lemma Get_tombstone_sstable (fs : FS) l k v :
  table (memTable l) !! k = Some tombstone →
  Cache_.lookup (cache l) k = None →
  LSMTree_.search_levels fs (levels l) k = Some v →
  (LSMTree_.Get fs l k).1 = Ok v.
Proof.
  intros Hm Hc Hs. unfold LSMTree_.Get. rewrite MemTable_Get_tombstone by assumption.
  unfold Cache_.Get. rewrite Hc. cbn [set_cache levels]. rewrite Hs. reflexivity.
Qed.

Lemma Get_tombstone_nowhere (fs : FS) l k :
  table (memTable l) !! k = Some tombstone →
  Cache_.lookup (cache l) k = None →
  LSMTree_.search_levels fs (levels l) k = None →
  (LSMTree_.Get fs l k).1 = Err ErrKeyNotFound.
Proof.
  intros Hm Hc Hs. unfold LSMTree_.Get. rewrite MemTable_Get_tombstone by assumption.
  unfold Cache_.Get. rewrite Hc. cbn [set_cache levels]. rewrite Hs. reflexivity.
Qed.

(** The scenario of C1: insert, flush to an SSTable, read (which fills the
    block cache), delete, read again. *)
Definition c1_config : Config := mkConfig "db" 1048576 6400 true "none" false.

Definition c1_run : LSMTree * result string * result string :=
  let '(l, fs) := NewLSMTree_empty ∅ c1_config in
  let '(_, fs, l) := LSMTree_.Insert fs l "k" "v" 0 in
  let '(_, fs, l) := ForceCompaction fs l 1 2 in
  let '(before, l) := LSMTree_.Get fs l "k" in
  let '(_, l) := LSMTree_.Delete l "k" in
  let '(after, l') := LSMTree_.Get fs l "k" in
  (l, before, after).

(** C1 (code defect): with the tombstone of ["k"] in the memtable, [Get]
    returns the cached pre-delete value instead of not-found. *)
Theorem C1_delete_masked_by_cache :
  let '(l, before, after) := c1_run in
  table (memTable l) !! "k"%string = Some tombstone
  ∧ before = Ok "v"%string
  ∧ (LSMTree_.Get ∅ l "k").1 = Ok "v"%string
  ∧ after = Ok "v"%string.
Proof. vm_compute. split_and!; reflexivity. Qed.

(** An acknowledged insert of a value other than the tombstone string is
    what the next [Get] returns. *)
Lemma LSM_insert_then_get (fs : FS) l k v now fs' l' :
  LSMTree_.Insert fs l k v now = (Ok tt, fs', l') →
  v ≠ tombstone →
  (LSMTree_.Get fs' l' k).1 = Ok v.
Proof.
  intros Hins Hv.
  assert (table (memTable l') !! k = Some v) as Hk.
  { unfold LSMTree_.Insert in Hins. cbn [WAL_.Append] in Hins.
    cbn [set_wal memTable metrics] in Hins.
    destruct (MemTable_.Insert (memTable l) k v) as [[[]|e] mt] eqn:E1.
    - inversion Hins; subst. cbn [memTable set_metrics set_memTable].
      unfold MemTable_.Insert in E1. cbv zeta in E1.
      destruct (_ >? _) in E1; inversion E1; subst. cbn [table].
      by rewrite lookup_insert_eq.
    - destruct e; try (inversion Hins; fail).
      destruct (LSMTree_.flushMemTable fs _ now) as [[[[]|e2] fs2] l2] eqn:E2;
        [|inversion Hins].
      destruct (MemTable_.Insert (memTable l2) k v) as [[[]|e3] mt3] eqn:E3;
        [|inversion Hins].
      inversion Hins; subst. cbn [memTable set_metrics set_memTable].
      unfold MemTable_.Insert in E3. cbv zeta in E3.
      destruct (_ >? _) in E3; inversion E3; subst. cbn [table].
      by rewrite lookup_insert_eq. }
  unfold LSMTree_.Get. rewrite (MemTable_Get_live _ _ _ Hk Hv). reflexivity.
Qed.

(** The outcome of [Delete]. *)
Lemma LSM_Delete_spec l k :
  LSMTree_.Delete l k
  = (Ok tt,
     mkLSMTree (config l)
               (mkMemTable (<[k := tombstone]> (table (memTable l)))
                           (size (memTable l)) (maxSize (memTable l)))
               (mkWAL (wal_path (wal l)) (syncWrites (wal l))
                      (walCh (wal l) ++ [mkWalEntry 1 k EmptyString])
                      (wrap_int64 (entryCount (wal l) + 1)))
               (levels l) (cache l) (IncWrites (metrics l))).
Proof. reflexivity. Qed.


(** ** Compaction *)

Lemma encode_all_app r1 r2 : encode_all (r1 ++ r2) = encode_all r1 ++ encode_all r2.
Proof. unfold encode_all. by rewrite map_app, concat_app. Qed.

Lemma take_body recs :
  take (Z.to_nat (Z.of_nat (length (sst_file recs)) - 4)) (sst_file recs) = encode_all recs.
Proof.
  unfold sst_file. rewrite length_app. unfold put_u32_be at 1. cbn [length].
  replace (Z.to_nat _) with (length (encode_all recs)) by lia.
  apply take_app_length.
Qed.

(** An input of a merge: its file holds [recs] and is not the output. *)
Definition input_of (fs : FS) (newPath : string) (sst : SSTable)
    (recs : list (string * string)) : Prop :=
  fs !! filePath sst = Some (sst_file recs) ∧ filePath sst ≠ newPath.

Lemma copy_bodies_spec ssts : ∀ recss (fs : FS) out newPath,
  Forall2 (input_of fs newPath) ssts recss →
  fs !! newPath = Some out →
  copy_bodies fs newPath ssts
  = (Ok tt, <[newPath := out ++ encode_all (concat recss)]> fs).
Proof.
  induction ssts as [|sst ssts IH]; intros recss fs out newPath Hfiles Hout.
  - inversion Hfiles; subst. cbn [copy_bodies concat]. unfold encode_all. cbn [map concat].
    by rewrite app_nil_r, insert_id.
  - inversion Hfiles as [|? recs ? recss' [Hsst Hne] Hrest]; subst.
    cbn [copy_bodies]. rewrite Hsst, take_body.
    unfold WAL_.file_Write. rewrite Hout. cbn [default].
    rewrite (IH recss' _ (out ++ encode_all recs)).
    + rewrite insert_insert_eq. cbn [concat]. by rewrite encode_all_app, app_assoc.
    + eapply Forall2_impl; [exact Hrest|]. intros s r [Hs Hsne].
      split; [|assumption]. by rewrite lookup_insert_ne.
    + by rewrite lookup_insert_eq.
Qed.

(** Merging tables whose files open, into a fresh path, succeeds: the new
    file holds the records of the inputs in the order of the inputs, and the
    merged table is the one those records describe. *)
Lemma mergeSSTables_spec (fs : FS) ssts cfg now :
  let newPath := sst_path (FilePath cfg) now in
  let useBloom := UseBloomFilter cfg in
  Forall (λ sst, OpenSSTable fs (filePath sst) useBloom = Ok sst
                 ∧ filePath sst ≠ newPath) ssts →
  ∃ recss,
    Forall2 (λ sst recs, sst = sst_of_records (filePath sst) recs useBloom) ssts recss
    ∧ Forall rec_ok (concat recss)
    ∧ mergeSSTables fs ssts cfg now
      = (Ok (sst_of_records newPath (concat recss) useBloom),
         <[newPath := sst_file (concat recss)]> fs).
Proof.
  intros newPath useBloom Hin.
  assert (∃ recss, Forall2 (input_of fs newPath) ssts recss
                   ∧ Forall2 (λ sst recs, sst = sst_of_records (filePath sst) recs useBloom)
                             ssts recss
                   ∧ Forall rec_ok (concat recss)) as (recss & Hfiles & Htabs & Hok).
  { induction Hin as [|sst ssts [Hopen Hne] _ (recss & IH1 & IH2 & IH3)].
    - exists []. split_and!; constructor.
    - apply OpenSSTable_inv in Hopen as (recs & Hok & Hfile & Hsst).
      exists (recs :: recss). split_and!; [by constructor | by constructor |].
      cbn [concat]. by apply Forall_app. }
  exists recss. split_and!; [assumption..|].
  unfold mergeSSTables. cbv zeta. fold newPath. fold useBloom.
  rewrite (copy_bodies_spec ssts recss _ [] newPath).
  - cbn [app]. rewrite insert_insert_eq, lookup_insert_eq. cbn [default].
    unfold WAL_.file_Write. rewrite lookup_insert_eq. cbn [default].
    rewrite insert_insert_eq. fold (sst_file (concat recss)).
    f_equal. apply OpenSSTable_sst_file; [assumption | by rewrite lookup_insert_eq].
  - eapply Forall2_impl; [exact Hfiles|]. intros s r [Hs Hsne].
    split; [|assumption]. by rewrite lookup_insert_ne.
  - by rewrite lookup_insert_eq.
Qed.

Lemma sst_of_records_index_keys path recs useBloom :
  dom (index (sst_of_records path recs useBloom)) = list_to_set recs.*1.
Proof.
  unfold sst_of_records. cbv zeta. cbn [index]. rewrite fold_scan_dom.
  cbn [scanner0 s_index]. by rewrite dom_empty_L, union_empty_l_L.
Qed.

(** The keys of a merged table are the keys of its inputs. *)
Lemma merged_keys ssts recss path useBloom k :
  Forall2 (λ sst recs, sst = sst_of_records (filePath sst) recs useBloom) ssts recss →
  k ∈ dom (index (sst_of_records path (concat recss) useBloom))
  ↔ ∃ sst, sst ∈ ssts ∧ k ∈ dom (index sst).
Proof.
  intros Htabs. rewrite sst_of_records_index_keys.
  induction Htabs as [|sst recs ssts recss Hsst _ IH].
  - cbn. split; [intros Hin; by apply elem_of_empty in Hin|].
    intros (? & Hin & _). by apply elem_of_nil in Hin.
  - cbn [concat]. rewrite fmap_app, list_to_set_app_L, elem_of_union, IH.
    rewrite <- (sst_of_records_index_keys (filePath sst) recs useBloom), <- Hsst.
    split.
    + intros [Hk|(s & Hs & Hk)]; [exists sst | exists s]; split; try assumption.
      * by left.
      * by right.
    + intros (s & Hs & Hk). apply elem_of_cons in Hs as [->|Hs]; [by left|].
      right. by exists s.
Qed.

(** [Compact] below the threshold and at the threshold. *)
Lemma Compact_below_threshold (fs : FS) l now level0 higher :
  levels l = level0 :: higher →
  (length level0 < 4)%nat →
  Compactor_.Compact fs l now = (Ok tt, fs, l).
Proof.
  intros Hlv Hlen. unfold Compactor_.Compact. rewrite Hlv.
  destruct (Z.ltb_spec (Z.of_nat (length level0)) 4); [reflexivity|lia].
Qed.

Lemma Compact_at_threshold (fs : FS) l now level0 higher merged fs' :
  levels l = level0 :: higher →
  (4 ≤ length level0)%nat →
  mergeSSTables fs level0 (config l) now = (Ok merged, fs') →
  Compactor_.Compact fs l now
  = (Ok tt, fs',
     set_levels l ([] :: sort_by_minKey (default [] (head higher) ++ [merged])
                      :: tail higher)).
Proof.
  intros Hlv Hlen Hmerge. unfold Compactor_.Compact. rewrite Hlv.
  destruct (Z.ltb_spec (Z.of_nat (length level0)) 4); [lia|].
  rewrite Hmerge. destruct higher; reflexivity.
Qed.

(** The state in which [ForceCompaction] calls [Compact]: a non-empty
    memtable has been flushed. *)
Definition after_flush (fs : FS) (l : LSMTree) (now : Z) : FS * LSMTree :=
  if MemTable_.Size (memTable l) >? 0 then
    let '(_, fs1, l1) := LSMTree_.flushMemTable fs l now in (fs1, l1)
  else (fs, l).

Lemma ForceCompaction_after_flush (fs : FS) l now1 now2 :
  levels l ≠ [] →
  ForceCompaction fs l now1 now2
  = Compactor_.Compact (after_flush fs l now1).1 (after_flush fs l now1).2 now2
  ∧ config (after_flush fs l now1).2 = config l.
Proof.
  intros Hlv. unfold ForceCompaction, after_flush.
  destruct (Z.gtb_spec (MemTable_.Size (memTable l)) 0) as [Hpos|]; [|done].
  destruct (levels l) as [|level0 higher] eqn:E; [done|].
  pose proof (flushMemTable_spec fs l now1 level0 higher E) as Hflush.
  cbv zeta in Hflush. unfold MemTable_.Size in Hpos.
  rewrite Hflush by lia. done.
Qed.

(** Two tables at level 0 of a tree with an empty memtable. *)
Definition two_tables : FS * LSMTree :=
  let '(l, fs) := NewLSMTree_empty ∅ (mkConfig "db" 2 6400 false "none" false) in
  let '(_, fs, l) := LSMTree_.Insert fs l "a" "1" 1 in
  let '(_, fs, l) := LSMTree_.Insert fs l "b" "2" 2 in
  let '(_, fs, l) := LSMTree_.flushMemTable fs l 3 in
  (fs, l).

(** C5, counterexample: with two SSTables at level 0, [ForceCompaction]
    returns ok and merges nothing; both tables stay at level 0. *)
Lemma C5_two_tables_not_merged :
  let '(fs, l) := two_tables in
  let '(r, fs', l') := ForceCompaction fs l 4 5 in
  length <$> levels l = [2%nat]
  ∧ r = Ok tt
  ∧ levels l' = levels l
  ∧ sstable_count l' = 2.
Proof. vm_compute. split_and!; reflexivity. Qed.

(** C5 (amended): [ForceCompaction] flushes a non-empty memtable and then
    runs [Compact], whose threshold applies: with fewer than four SSTables at
    level 0 nothing is merged and the level system stays as the flush left
    it; with four or more, each the table its file opens to and none at the
    output path, the merge succeeds, level 0 becomes empty and the merged
    SSTable, which holds the keys of all inputs, is added to level 1, so that
    exactly one SSTable remains, at level 1, when there was no higher level
    before. *)
Theorem C5_force_compaction (fs : FS) l now1 now2 level0 higher :
  levels l ≠ [] →
  levels (after_flush fs l now1).2 = level0 :: higher →
  let fs1 := (after_flush fs l now1).1 in
  let l1 := (after_flush fs l now1).2 in
  let useBloom := UseBloomFilter (config l) in
  ((length level0 < 4)%nat → ForceCompaction fs l now1 now2 = (Ok tt, fs1, l1))
  ∧ ((4 ≤ length level0)%nat →
     Forall (λ sst, OpenSSTable fs1 (filePath sst) useBloom = Ok sst
                    ∧ filePath sst ≠ sst_path (FilePath (config l)) now2) level0 →
     ∃ merged fs' l',
       ForceCompaction fs l now1 now2 = (Ok tt, fs', l')
       ∧ levels l'
         = [] :: sort_by_minKey (default [] (head higher) ++ [merged]) :: tail higher
       ∧ OpenSSTable fs' (filePath merged) useBloom = Ok merged
       ∧ (∀ k, k ∈ dom (index merged) ↔ ∃ sst, sst ∈ level0 ∧ k ∈ dom (index sst))
       ∧ (higher = [] → levels l' = [[]; [merged]] ∧ sstable_count l' = 1)).
Proof.
  intros Hne Hlv fs1 l1 useBloom.
  destruct (ForceCompaction_after_flush fs l now1 now2 Hne) as [-> Hcfg].
  fold fs1 l1 in Hcfg |- *. split.
  - intros Hlen. by apply (Compact_below_threshold fs1 l1 now2 level0 higher).
  - intros Hlen Hin.
    destruct (mergeSSTables_spec fs1 level0 (config l1) now2) as (recss & Htabs & Hok & Hmerge).
    { rewrite Hcfg. exact Hin. }
    rewrite Hcfg in Hmerge, Htabs. fold useBloom in Hmerge, Htabs.
    set (newPath := sst_path (FilePath (config l)) now2) in *.
    set (merged := sst_of_records newPath (concat recss) useBloom) in *.
    exists merged. do 2 eexists.
    rewrite <- Hcfg in Hmerge at 1.
    split; [exact (Compact_at_threshold fs1 l1 now2 level0 higher _ _ Hlv Hlen Hmerge)|].
    cbn [set_levels levels]. split_and!.
    + reflexivity.
    + apply OpenSSTable_sst_file; [assumption | by rewrite lookup_insert_eq].
    + intros k. by apply merged_keys.
    + intros ->. split; reflexivity.
Qed.

(** A run of inserts, the clock advancing by one at each. *)
Fixpoint inserts (kvs : list (string * string)) (now : Z) (fs : FS) (l : LSMTree)
  : FS * LSMTree :=
  match kvs with
  | [] => (fs, l)
  | (k, v) :: kvs' =>
      let '(_, fs, l) := LSMTree_.Insert fs l k v now in inserts kvs' (now + 1) fs l
  end.

(** Four flushed tables and a memtable that holds a newer value of ["b"]:
    the memtable cap is 8 bytes, so every third insert flushes. *)
Definition c4_state : FS * LSMTree :=
  let '(l, fs) := NewLSMTree_empty ∅ (mkConfig "db" 8 6400 false "none" false) in
  inserts [("b", "old"); ("c", "1"); ("d", "22"); ("e", "4444"); ("f", "1");
           ("g", "55555"); ("h", "1"); ("i", "55555"); ("a", "1"); ("b", "new")]%string
          1 fs l.

(** C4 (code defect): level 0 is ordered by min key, not by age, and the
    merge concatenates the files in that order, the index keeping the last
    record of a key.  The newest table (flushed at time 20, keys ["a"] and
    ["b"]) sorts before the oldest (time 3, keys ["b"] and ["c"]), so the
    merged table returns the old value of ["b"], and the tree, which
    answered ["new"] before the compaction, answers ["old"] after it. *)
Theorem C4_compaction_keeps_older_record :
  let '(fs, l) := c4_state in
  let '(_, fs1, l1) := LSMTree_.flushMemTable fs l 20 in
  let '(r, fs2, l2) := Compactor_.Compact fs1 l1 21 in
  (λ s, (filePath s, SSTable_.Get fs1 s "b")) <$> default [] (head (levels l1))
  = [("db/db.sst.20.sst", ("new", true)); ("db/db.sst.3.sst", ("old", true));
     ("db/db.sst.5.sst", ("", false)); ("db/db.sst.7.sst", ("", false));
     ("db/db.sst.9.sst", ("", false))]%string
  ∧ (LSMTree_.Get fs1 l1 "b").1 = Ok "new"%string
  ∧ r = Ok tt
  ∧ (λ s, SSTable_.Get fs2 s "b") <$> default [] (levels l2 !! 1%nat)
    = [("old", true)]%string
  ∧ (LSMTree_.Get fs2 l2 "b").1 = Ok "old"%string.
Proof. vm_compute. split_and!; reflexivity. Qed.

Lemma C5_force_compaction_witness :
  ∃ merged fs' l',
    ForceCompaction c4_state.1 c4_state.2 20 21 = (Ok tt, fs', l')
    ∧ OpenSSTable fs' (filePath merged) (UseBloomFilter (config c4_state.2)) = Ok merged
    ∧ levels l' = [[]; [merged]]
    ∧ sstable_count l' = 1.
Proof.
  destruct (proj2 (C5_force_compaction c4_state.1 c4_state.2 20 21
                     (default [] (head (levels (after_flush c4_state.1 c4_state.2 20).2)))
                     []
                     ltac:(vm_compute; discriminate) ltac:(vm_compute; reflexivity))
                  ltac:(vm_compute; lia)
                  ltac:(apply (bool_decide_unpack _); vm_compute; exact I))
    as (merged & fs' & l' & Hrun & Hlevels & Hopen & Hkeys & Hone).
  destruct (Hone eq_refl) as [Hlv Hcount].
  exists merged, fs', l'. split_and!; assumption.
Defined.

End LSMFacts.

(** ** The B-tree *)

Module BTFacts.
Import BT.

(** The configuration of the repository's B-tree tests. *)
Definition test_config : BtConfig := mkBtConfig 2 4096 false 0.
Definition cached_config : BtConfig := mkBtConfig 2 4096 true 2.

Definition oversize : string := string_of_bytes (replicate (Z.to_nat 4096) "x"%char).

(** C2 (code defect): inserting a key the tree already holds appends a second
    item with that key; [Get] stops at the older item and returns the old
    value, and [Length] counts the key twice. *)
Theorem C2_btree_insert_existing_key :
  let b0 := NewBtree [] test_config in
  let '(r1, b1) := Insert 8 "k" "a" b0 in
  let '(r2, b2) := Insert 8 "k" "b" b1 in
  r1 = Ok tt ∧ r2 = Ok tt
  ∧ (Get 8 "k" b2).1 = Ok "a"%string
  ∧ Length b2 = 2.
Proof. vm_compute. split_and!; reflexivity. Qed.

(** C7 (code defect): the insert that overflows the page returns an error
    and leaves the file and the length as they were, but the cached leaf
    has already received the item: the next [Get] returns the rejected
    value. *)
Theorem C7_rejected_insert_served_from_cache :
  let b0 := NewBtree [] cached_config in
  let '(r1, b1) := Insert 8 "a" "1" b0 in
  let '(r2, b2) := Insert 8 "b" oversize b1 in
  r1 = Ok tt
  ∧ (Get 8 "b" b1).1 = Err (Errorf "key not found")
  ∧ r2 = Err (Errorf "node data exceeds page size: %d > %d")
  ∧ file b2 = file b1 ∧ Length b2 = Length b1 ∧ RootOffset b2 = RootOffset b1
  ∧ (Get 8 "b" b2).1 = Ok oversize.
Proof. vm_compute. split_and!; reflexivity. Qed.

(** The same defect without a cache: when the root is full it is split and
    the halves are written before the overflowing leaf is rejected; the
    header still names the old root page, which now holds one item. *)
Lemma rejected_insert_after_root_split :
  let b0 := NewBtree [] test_config in
  let '(_, b1) := Insert 8 "1" "a" b0 in
  let '(_, b2) := Insert 8 "2" "b" b1 in
  let '(_, b3) := Insert 8 "3" "c" b2 in
  let '(r, b4) := Insert 8 "4" oversize b3 in
  (Get 8 "2" b3).1 = Ok "b"%string
  ∧ r = Err (Errorf "node data exceeds page size: %d > %d")
  ∧ RootOffset b4 = RootOffset b3 ∧ Length b4 = Length b3
  ∧ (Get 8 "2" b4).1 = Err (Errorf "key not found").
Proof. vm_compute. split_and!; reflexivity. Qed.

(** [fill] merges the child with its left sibling and [deleteFromNode] then
    descends into the child's old position: the key is reported missing
    although the tree holds it. *)
Lemma delete_after_merge_with_left_sibling :
  let b0 := NewBtree [] test_config in
  let '(_, b) := Insert 8 "1" "a" b0 in
  let '(_, b) := Insert 8 "2" "b" b in
  let '(_, b) := Insert 8 "3" "c" b in
  let '(_, b) := Insert 8 "4" "d" b in
  let '(_, b) := Insert 8 "5" "e" b in
  let '(_, b) := Insert 8 "6" "f" b in
  let '(r6, b) := Delete 8 "6" b in
  let '(r3, b') := Delete 8 "3" b in
  r6 = Ok tt
  ∧ (Get 8 "3" b).1 = Ok "c"%string
  ∧ r3 = Err (Errorf "key not found")
  ∧ (Get 8 "3" b').1 = Ok "c"%string
  ∧ (Delete 8 "5" b).1 = Err (Panic "index out of range").
Proof. vm_compute. split_and!; reflexivity. Qed.

(** A leaf that holds a key twice (the second [Insert] of the key appends
    an item, see C2): [Delete] removes the first item only, so the key is
    still read afterwards, with the value of the other item, and a second
    [Delete] of it returns ok. *)
Lemma delete_with_duplicate_key :
  let b0 := NewBtree [] test_config in
  let '(_, b) := Insert 8 "k" "a" b0 in
  let '(_, b) := Insert 8 "k" "b" b in
  let '(r1, b1) := Delete 8 "k" b in
  let '(r2, b2) := Delete 8 "k" b1 in
  r1 = Ok tt
  ∧ (Get 8 "k" b1).1 = Ok "b"%string
  ∧ r2 = Ok tt
  ∧ (Get 8 "k" b2).1 = Err ErrKeyNotFound.
Proof. vm_compute. split_and!; reflexivity. Qed.

(** A key of 4084 bytes with the empty value makes a leaf of exactly one
    page (4096 bytes). *)
Definition exact_fit_key : string := string_of_bytes (replicate (Z.to_nat 4084) "x"%char).

(** A leaf that fills its page to the last byte and ends in an empty value
    is written but not read back: [bytes.Reader.Read] of zero bytes at the
    end of the page returns [io.EOF], so [Get] and [Delete] of the key fail
    with a read error. *)
Lemma exact_fit_leaf_unreadable :
  let b0 := NewBtree [] test_config in
  let '(r, b) := Insert 8 exact_fit_key "" b0 in
  r = Ok tt ∧ Length b = 1
  ∧ (Get 8 exact_fit_key b).1 = Err (Errorf "failed to read value: %v")
  ∧ (Delete 8 exact_fit_key b).1 = Err (Errorf "failed to read value: %v").
Proof. vm_compute. split_and!; reflexivity. Qed.

(** *** Pages of leaf nodes *)

Lemma put_le_S n z : put_le (S n) z = byte_of_Z z :: put_le n (z / 256).
Proof.
  unfold put_le. cbn [seq map]. f_equal.
  - f_equal. cbn. apply Z.div_1_r.
  - rewrite <- seq_shift, map_map. apply map_ext. intros i.
    f_equal. rewrite Z.div_div by (try apply Z.pow_pos_nonneg; lia).
    f_equal. replace (8 * Z.of_nat (S i)) with (8 + 8 * Z.of_nat i) by lia.
    rewrite Z.pow_add_r by lia. reflexivity.
Qed.

Lemma put_le_length n z : length (put_le n z) = n.
Proof. unfold put_le. by rewrite length_map, length_seq. Qed.

Lemma get_put_le n : ∀ z, 0 ≤ z < 2 ^ (8 * Z.of_nat n) → get_le (put_le n z) = z.
Proof.
  induction n as [|n IH]; intros z Hz.
  - cbn in *. lia.
  - rewrite put_le_S. cbn [get_le fold_right]. fold (get_le (put_le n (z / 256))).
    rewrite Z_of_byte_of_Z, IH.
    + pose proof (Z.div_mod z 256 ltac:(lia)). lia.
    + replace (8 * Z.of_nat (S n)) with (8 + 8 * Z.of_nat n) in Hz by lia.
      rewrite Z.pow_add_r in Hz by lia. change (2 ^ 8) with 256 in Hz.
      split; [apply Z.div_pos; lia | apply Z.div_lt_upper_bound; lia].
Qed.

Lemma rd_le_put n z tl :
  (0 < n)%nat → 0 ≤ z < 2 ^ (8 * Z.of_nat n) →
  rd_le n (put_le n z ++ tl) = Ok (z, tl).
Proof.
  intros Hn Hz. unfold rd_le.
  destruct (put_le n z ++ tl) eqn:E.
  { apply (f_equal length) in E. rewrite length_app, put_le_length in E. simpl in E. lia. }
  rewrite <- E. rewrite length_app, put_le_length.
  destruct (Nat.ltb_spec (n + length tl) n); [lia|].
  rewrite take_app_length', drop_app_length' by (by rewrite put_le_length).
  by rewrite get_put_le.
Qed.

Lemma rd_Read_bytes s tl :
  tl ≠ [] → rd_Read (len s) (bytes_of_string s ++ tl) = Ok (bytes_of_string s, tl).
Proof.
  intros Htl. unfold rd_Read.
  destruct (bytes_of_string s ++ tl) eqn:E.
  { destruct (bytes_of_string s); [by simpl in E | discriminate]. }
  rewrite <- E.
  assert (Z.to_nat (len s) = length (bytes_of_string s)) as Hl
    by (rewrite bytes_of_string_length; unfold len; lia).
  rewrite take_app_length', drop_app_length' by assumption. unfold pad_to.
  by rewrite Hl, Nat.sub_diag, app_nil_r.
Qed.

(** Items whose key and value fit the two-byte length fields. *)
Definition item_ok (item : Item) : Prop :=
  len (Key item) < 65536 ∧ len (Value item) < 65536.

Global Instance item_ok_dec item : Decision (item_ok item).
Proof. unfold item_ok. apply _. Defined.

Definition items_bytes (its : list Item) : list ascii := concat (map item_bytes its).

Lemma read_items_encoded its : ∀ tl,
  Forall item_ok its → tl ≠ [] →
  read_items (length its) (items_bytes its ++ tl) = Ok (its, tl).
Proof.
  induction its as [|item its IH]; intros tl Hok Htl; [reflexivity|].
  inversion Hok as [|? ? [Hk Hv] Hrest]; subst.
  pose proof (len_nonneg (Key item)). pose proof (len_nonneg (Value item)).
  assert (items_bytes its ++ tl ≠ []) as Hne.
  { intros E. apply app_eq_nil in E as [_ ?]. contradiction. }
  cbn [length read_items]. unfold items_bytes. cbn [map concat]. fold (items_bytes its).
  unfold item_bytes, to_uint16. rewrite !Z.mod_small by lia.
  rewrite <- !app_assoc.
  rewrite rd_le_put by (cbn; lia). cbn [or_fail]. rewrite LSMFacts.bind_Ok. cbv beta iota.
  rewrite rd_Read_bytes by (rewrite put_le_S; discriminate).
  cbn [or_fail]. rewrite LSMFacts.bind_Ok. cbv beta iota.
  rewrite rd_le_put by (cbn; lia). cbn [or_fail]. rewrite LSMFacts.bind_Ok. cbv beta iota.
  rewrite rd_Read_bytes by assumption.
  cbn [or_fail]. rewrite LSMFacts.bind_Ok. cbv beta iota.
  rewrite IH by assumption. rewrite LSMFacts.bind_Ok. cbv beta iota.
  rewrite !string_of_bytes_of_string. by destruct item.
Qed.

(** The serialization of a leaf. *)
Definition leaf_bytes (its : list Item) : list ascii :=
  encode_node (mkNode its [] 0 false).

Lemma encode_leaf its off e : encode_node (mkNode its [] off e) = leaf_bytes its.
Proof. reflexivity. Qed.

Lemma leaf_bytes_length its :
  Z.of_nat (length (leaf_bytes its)) = 8 + Z.of_nat (length (items_bytes its)).
Proof.
  unfold leaf_bytes, encode_node. cbn [items childrenOffsets map concat].
  rewrite !length_app, !put_le_length. fold (items_bytes its). cbn [length]. lia.
Qed.

Lemma item_bytes_length item :
  Z.of_nat (length (item_bytes item)) = 4 + len (Key item) + len (Value item).
Proof.
  unfold item_bytes. rewrite !length_app, !put_le_length, !bytes_of_string_length.
  unfold len. lia.
Qed.

Lemma items_bytes_length_ge its : (4 * length its ≤ length (items_bytes its))%nat.
Proof.
  induction its as [|item its IH]; [simpl; lia|].
  unfold items_bytes in *. cbn [map concat]. rewrite length_app.
  pose proof (item_bytes_length item). pose proof (len_nonneg (Key item)).
  pose proof (len_nonneg (Value item)). cbn [length]. lia.
Qed.

(** A page that holds a leaf with room to spare decodes to that leaf. *)
Lemma decode_leaf_page its P off :
  Forall item_ok its →
  Z.of_nat (length (leaf_bytes its)) < P → P < 2^32 →
  decode_node (padded P (leaf_bytes its)) off = Ok (mkNode its [] off false).
Proof.
  intros Hok Hfit HP. change (2^32) with 4294967296 in HP.
  pose proof (leaf_bytes_length its) as Hlen.
  pose proof (items_bytes_length_ge its) as Hcount.
  assert (padded P (leaf_bytes its)
          = leaf_bytes its ++ replicate (Z.to_nat P - length (leaf_bytes its)) zero) as ->.
  { unfold padded, pad_to. apply take_ge. rewrite length_app, length_replicate. lia. }
  destruct (replicate (Z.to_nat P - length (leaf_bytes its)) zero) as [|z0 pad] eqn:Epad.
  { apply (f_equal length) in Epad. rewrite length_replicate in Epad.
    cbn [length] in Epad. lia. }
  unfold leaf_bytes at 1, encode_node. cbn [items childrenOffsets map concat].
  rewrite app_nil_r. fold (items_bytes its). unfold to_uint32, llen. cbn [length].
  rewrite !Z.mod_small by lia. rewrite <- !app_assoc.
  unfold decode_node.
  rewrite rd_le_put by (cbn; lia). cbn [or_fail]. rewrite LSMFacts.bind_Ok. cbv beta iota.
  rewrite rd_le_put by (cbn; lia). cbn [or_fail]. rewrite LSMFacts.bind_Ok. cbv beta iota.
  rewrite !Nat2Z.id, read_items_encoded by (try assumption; discriminate).
  rewrite LSMFacts.bind_Ok. cbv beta iota. reflexivity.
Qed.

(** *** Reading back what was written *)

Lemma padded_length P data : length (padded P data) = Z.to_nat P.
Proof.
  unfold padded, pad_to. rewrite length_take, length_app, length_replicate. lia.
Qed.

Lemma padded_fits P data :
  Z.of_nat (length data) ≤ P →
  padded P data = data ++ replicate (Z.to_nat P - length data) zero.
Proof.
  intros H. unfold padded, pad_to. apply take_ge.
  rewrite length_app, length_replicate. lia.
Qed.

Lemma pad_to_take_length off (file : list ascii) :
  0 ≤ off → length (pad_to off (take (Z.to_nat off) file)) = Z.to_nat off.
Proof. intros H. unfold pad_to. rewrite length_app, length_replicate, length_take. lia. Qed.

Lemma ReadAt_full file P off :
  0 ≤ off → (Z.to_nat off + Z.to_nat P ≤ length file)%nat →
  ReadAt file P off = (take (Z.to_nat P) (drop (Z.to_nat off) file), None).
Proof.
  intros Hoff Hlen. unfold ReadAt. destruct (Z.ltb_spec off 0); [lia|].
  assert (length (take (Z.to_nat P) (drop (Z.to_nat off) file)) = Z.to_nat P) as Hl
    by (rewrite length_take, length_drop; lia).
  unfold pad_to, llen. rewrite Hl, Nat.sub_diag, app_nil_r.
  destruct (Z.ltb_spec (Z.of_nat (Z.to_nat P)) P); [lia|reflexivity].
Qed.

Lemma WriteAt_length file data off :
  0 ≤ off →
  length (WriteAt file data off)
  = (Z.to_nat off + length data + (length file - (Z.to_nat off + length data)))%nat.
Proof.
  intros Hoff. unfold WriteAt.
  rewrite !length_app, pad_to_take_length, length_drop by assumption. lia.
Qed.

(** The page just written is the page read back. *)
Lemma WriteAt_read_same file data off :
  0 ≤ off →
  take (length data) (drop (Z.to_nat off) (WriteAt file data off)) = data.
Proof.
  intros Hoff. unfold WriteAt.
  rewrite drop_app_length' by (by rewrite pad_to_take_length).
  apply take_app_length.
Qed.

(** A write of [n] bytes at the start of the file leaves a page that begins
    at or after byte [n] as it was. *)
Lemma WriteAt_0_read_other file data off :
  (length data ≤ Z.to_nat off)%nat →
  drop (Z.to_nat off) (WriteAt file data 0) = drop (Z.to_nat off) file.
Proof.
  intros Hle. unfold WriteAt.
  change (pad_to 0 (take (Z.to_nat 0) file)) with (@nil ascii).
  change (Z.to_nat 0 + length data)%nat with (length data). cbn [app].
  rewrite drop_app_ge by assumption.
  rewrite drop_drop. f_equal. lia.
Qed.

(** *** The operations without a cache *)

Local Arguments encode_node : simpl never.
Local Arguments decode_node : simpl never.
Local Arguments ReadAt : simpl never.
Local Arguments WriteAt : simpl never.
Local Arguments padded : simpl never.

Lemma readNode_nocache b off data n :
  cacheSize b = 0 →
  ReadAt (file b) (pageSize b) off = (data, None) →
  decode_node data off = Ok n →
  readNode off b = (Ok (length (heap b)), set_heap (heap b ++ [n]) b).
Proof.
  intros Hc Hread Hdec.
  unfold readNode, readNodeFromDisk, mbind, M_bind, gets, lift, new, mret, M_ret.
  cbn. rewrite Hc. cbn. rewrite Hread, Hdec. reflexivity.
Qed.

Lemma deref_Some b p n : heap b !! p = Some n → deref p b = (Ok n, b).
Proof. intros H. unfold deref. by rewrite H. Qed.

Lemma writeNode_nocache b p n off :
  cacheSize b = 0 →
  heap b !! p = Some n →
  llen (encode_node n) ≤ pageSize b →
  writeNode p off b
  = (Ok tt,
     set_heap (alter (with_offset off) p (heap b))
              (set_file (WriteAt (file b) (padded (pageSize b) (encode_node n)) off) b)).
Proof.
  intros Hc Hp Hfit.
  unfold writeNode, writeNodeToDisk, mbind, M_bind, gets, update, modify, mret, M_ret, fail.
  rewrite (deref_Some b p n Hp). cbv beta iota zeta. unfold id.
  destruct (Z.gtb_spec (llen (encode_node n)) (pageSize b)); [lia|].
  cbv beta iota zeta. cbn [cacheSize set_heap set_file]. rewrite Hc. reflexivity.
Qed.
(** *** Searching a sorted leaf *)

Lemma string_compare_refl s : String.compare s s = Eq.
Proof.
  induction s as [|c s IH]; [reflexivity|]. cbn [String.compare].
  unfold Ascii.compare. by rewrite N.compare_refl.
Qed.

Lemma str_lt_irrefl s : str_lt s s = false.
Proof. unfold str_lt, String.ltb. by rewrite string_compare_refl. Qed.

Definition key_lt (x y : Item) : Prop := str_lt (Key x) (Key y) = true.

Global Instance key_lt_dec x y : Decision (key_lt x y).
Proof. unfold key_lt. apply _. Defined.

(** The item [searchValue] and [deleteFromNode] find in a node's items. *)
Definition find_item (k : string) (its : list Item) : option Item :=
  let i := scan_up k its 0 in
  match (if i <? llen its then its !! Z.to_nat i else None) with
  | Some item => if str_eqb k (Key item) then Some item else None
  | None => None
  end.

Lemma scan_up_app k l1 l2 i0 :
  Forall (λ x, str_lt (Key x) k = true) l1 →
  scan_up k (l1 ++ l2) i0 = scan_up k l2 (i0 + llen l1).
Proof.
  revert i0. induction l1 as [|x l1 IH]; intros i0 Hlt.
  - cbn. f_equal. unfold llen. simpl. lia.
  - inversion Hlt as [|? ? Hx Hrest]; subst. cbn [app scan_up]. rewrite Hx, IH by assumption.
    f_equal. unfold llen. cbn [length]. lia.
Qed.

Lemma scan_up_range k its i0 : i0 ≤ scan_up k its i0 ≤ i0 + llen its.
Proof.
  revert i0. induction its as [|x its IH]; intros i0; unfold llen in *; cbn [scan_up length].
  - lia.
  - destruct (str_lt (Key x) k); [specialize (IH (i0 + 1))|]; lia.
Qed.

Lemma find_item_Some k its item :
  find_item k its = Some item →
  Key item = k ∧ its !! Z.to_nat (scan_up k its 0) = Some item
  ∧ scan_up k its 0 < llen its.
Proof.
  unfold find_item. cbv zeta.
  destruct (Z.ltb_spec (scan_up k its 0) (llen its)); [|discriminate].
  destruct (its !! Z.to_nat (scan_up k its 0)) as [x|]; [|discriminate].
  unfold str_eqb. destruct (bool_decide_reflect (k = Key x)); [|discriminate].
  intros [= <-]. done.
Qed.

Lemma find_item_None_not_in k its :
  StronglySorted key_lt its → find_item k its = None → ∀ x, x ∈ its → Key x ≠ k.
Proof.
  intros Hsorted Hnone x Hin Hk.
  apply list_elem_of_split in Hin as (l1 & l2 & ->).
  assert (Forall (λ y, str_lt (Key y) k = true) l1) as Hl1.
  { apply Forall_forall. intros y Hy. rewrite <- Hk.
    apply (StronglySorted_app_1_elem_of key_lt l1 (x :: l2) y x Hsorted Hy).
    by left. }
  unfold find_item in Hnone. cbv zeta in Hnone.
  rewrite scan_up_app in Hnone by assumption. cbn [scan_up] in Hnone.
  rewrite Hk, str_lt_irrefl in Hnone.
  unfold llen in Hnone. rewrite length_app in Hnone. cbn [length] in Hnone.
  destruct (Z.ltb_spec (0 + Z.of_nat (length l1)) (Z.of_nat (length l1 + S (length l2))));
    [|lia].
  replace (Z.to_nat (0 + Z.of_nat (length l1))) with (length l1) in Hnone by lia.
  rewrite list_lookup_middle in Hnone by reflexivity.
  unfold str_eqb in Hnone. rewrite Hk in Hnone.
  by rewrite bool_decide_eq_true_2 in Hnone.
Qed.

Lemma remove_at_spec {A} (l : list A) i x :
  l !! i = Some x → l = take i l ++ x :: drop (S i) l
  ∧ remove_at l (Z.of_nat i) = take i l ++ drop (S i) l.
Proof.
  intros Hi. split; [by rewrite take_drop_middle|].
  unfold remove_at. by rewrite Nat2Z.id.
Qed.

(** Removing the item found leaves no item with that key. *)
Lemma removed_not_in k its item :
  StronglySorted key_lt its → find_item k its = Some item →
  ∀ x, x ∈ remove_at its (scan_up k its 0) → Key x ≠ k.
Proof.
  intros Hsorted Hfind x Hin.
  apply find_item_Some in Hfind as (Hk & Hlook & Hlt).
  pose proof (scan_up_range k its 0) as Hr.
  destruct (remove_at_spec its _ item Hlook) as [Hsplit Hrem].
  rewrite Z2Nat.id in Hrem by lia. rewrite Hrem in Hin.
  rewrite Hsplit in Hsorted.
  apply elem_of_app in Hin as [Hin|Hin].
  - pose proof (StronglySorted_app_1_elem_of key_lt _ _ x item Hsorted Hin
                  ltac:(by left)) as Hx.
    unfold key_lt in Hx. intros E. rewrite E, Hk, str_lt_irrefl in Hx. discriminate.
  - apply StronglySorted_app_1_r in Hsorted.
    apply StronglySorted_inv in Hsorted as [_ Hall].
    rewrite Forall_forall in Hall. specialize (Hall x Hin).
    unfold key_lt in Hall. intros E. rewrite E, Hk, str_lt_irrefl in Hall. discriminate.
Qed.

Lemma find_item_not_in k its :
  (∀ x, x ∈ its → Key x ≠ k) → find_item k its = None.
Proof.
  intros Hnot. unfold find_item. cbv zeta.
  destruct (_ <? _); [|reflexivity].
  destruct (its !! _) as [x|] eqn:E; [|reflexivity].
  apply list_elem_of_lookup_2 in E. unfold str_eqb.
  rewrite bool_decide_eq_false_2; [reflexivity|]. intros ->. by apply (Hnot x).
Qed.

Lemma find_item_in k its item :
  StronglySorted key_lt its → item ∈ its → Key item = k → find_item k its = Some item.
Proof.
  intros Hsorted Hin Hk.
  destruct (find_item k its) as [x|] eqn:E.
  - apply find_item_Some in E as (Hx & Hlook & _).
    apply list_elem_of_lookup_2 in Hlook.
    (* two items with the same key in a strictly sorted list are the same item *)
    destruct (decide (x = item)) as [->|Hne]; [reflexivity|exfalso].
    apply list_elem_of_split in Hin as (l1 & l2 & ->).
    apply elem_of_app in Hlook as [Hl|Hl].
    + pose proof (StronglySorted_app_1_elem_of key_lt _ _ x item Hsorted Hl
                    ltac:(by left)) as Hlt.
      unfold key_lt in Hlt. rewrite Hx, Hk, str_lt_irrefl in Hlt. discriminate.
    + apply elem_of_cons in Hl as [->|Hl]; [done|].
      apply StronglySorted_app_1_r, StronglySorted_inv in Hsorted as [_ Hall].
      rewrite Forall_forall in Hall. specialize (Hall x Hl).
      unfold key_lt in Hall. rewrite Hx, Hk, str_lt_irrefl in Hall. discriminate.
  - exfalso. by apply (find_item_None_not_in k its Hsorted E item).
Qed.

(** *** A tree that is a single leaf, without a cache *)

(** The root page holds the leaf [its], sorted by key, with room to spare. *)
Definition leaf_page (b : Btree) (its : list Item) : Prop :=
  cacheSize b = 0
  ∧ 0 < pageSize b < 2^32
  ∧ pageSize b ≤ RootOffset b
  ∧ (Z.to_nat (RootOffset b) + Z.to_nat (pageSize b) ≤ length (file b))%nat
  ∧ Forall item_ok its
  ∧ StronglySorted key_lt its
  ∧ llen (leaf_bytes its) < pageSize b
  ∧ take (Z.to_nat (pageSize b)) (drop (Z.to_nat (RootOffset b)) (file b))
    = padded (pageSize b) (leaf_bytes its).

(** ... and the header counts its items. *)
Definition leaf_tree (b : Btree) (its : list Item) : Prop :=
  leaf_page b its ∧ Length b = llen its.

Global Instance leaf_tree_dec b its : Decision (leaf_tree b its).
Proof. unfold leaf_tree, leaf_page. apply _. Defined.

Lemma read_root b its :
  leaf_page b its →
  readNode (RootOffset b) b
  = (Ok (length (heap b)),
     set_heap (heap b ++ [mkNode its [] (RootOffset b) false]) b).
Proof.
  intros (Hc & HP & Hroot & Hfile & Hok & Hsorted & Hfit & Hdata).
  eapply readNode_nocache; [assumption | apply ReadAt_full; [lia | assumption] |].
  rewrite Hdata. apply decode_leaf_page; [assumption | exact Hfit | lia].
Qed.

Lemma deref_new b n :
  deref (length (heap b)) (set_heap (heap b ++ [n]) b)
  = (Ok n, set_heap (heap b ++ [n]) b).
Proof. apply deref_Some. cbn [heap set_heap]. by rewrite list_lookup_middle. Qed.

Lemma leaf_nonempty_Length b its : leaf_tree b its → its ≠ [] → (Length b =? 0) = false.
Proof.
  intros [_ Hlen] Hne. apply Z.eqb_neq. rewrite Hlen. unfold llen.
  destruct its; [done|]. cbn [length]. lia.
Qed.

(** [Get] on a leaf tree returns the value of the item found, or the
    not-found error. *)
Lemma Get_leaf b its k fuel :
  leaf_tree b its → its ≠ [] →
  (Get (S fuel) k b).1
  = match find_item k its with
    | Some item => Ok (Value item)
    | None => Err (Errorf "key not found")
    end.
Proof.
  intros Htree Hne. pose proof (leaf_nonempty_Length b its Htree Hne) as HL.
  destruct Htree as [Hpage _].
  unfold Get, mbind, M_bind, gets, id. rewrite HL. cbn [searchValue].
  unfold mbind, M_bind. rewrite (read_root b its Hpage), deref_new.
  cbn [items childrenOffsets]. unfold find_item. cbv zeta.
  destruct (if scan_up k its 0 <? llen its then its !! Z.to_nat (scan_up k its 0) else None)
    as [item|]; [|reflexivity].
  destruct (str_eqb k (Key item)); reflexivity.
Qed.

Lemma items_bytes_app l1 l2 : items_bytes (l1 ++ l2) = items_bytes l1 ++ items_bytes l2.
Proof. unfold items_bytes. by rewrite map_app, concat_app. Qed.

Lemma leaf_bytes_remove its i x :
  its !! i = Some x →
  llen (leaf_bytes (remove_at its (Z.of_nat i))) ≤ llen (leaf_bytes its).
Proof.
  intros Hi. destruct (remove_at_spec its i x Hi) as [Hsplit ->].
  rewrite Hsplit at 3. unfold llen. rewrite !leaf_bytes_length, !items_bytes_app.
  change (x :: drop (S i) its) with ([x] ++ drop (S i) its).
  rewrite items_bytes_app, !length_app. lia.
Qed.

(** The state after the leaf item at [scan_up k its 0] has been removed and
    the page written. *)
Definition leaf_deleted (b : Btree) (its : list Item) (k : string) : Btree :=
  let its' := remove_at its (scan_up k its 0) in
  let p := length (heap b) in
  let off := RootOffset b in
  set_heap (alter (with_offset off) p
              (alter (with_items its') p (heap b ++ [mkNode its [] off false])))
           (set_file (WriteAt (file b) (padded (pageSize b) (leaf_bytes its')) off) b).

Lemma deleteFromNode_leaf b its k fuel :
  leaf_page b its →
  deleteFromNode (S fuel) (RootOffset b) k b
  = match find_item k its with
    | Some _ => (Ok tt, leaf_deleted b its k)
    | None => (Err (Errorf "key not found"),
               set_heap (heap b ++ [mkNode its [] (RootOffset b) false]) b)
    end.
Proof.
  intros Hpage. pose proof Hpage as (Hc & HP & Hroot & Hfile & Hok & Hsorted & Hfit & Hdata).
  cbn [deleteFromNode]. unfold mbind, M_bind.
  rewrite (read_root b its Hpage), deref_new. cbn [items childrenOffsets].
  destruct (find_item k its) as [item|] eqn:Efind.
  - pose proof Efind as (Hk & Hlook & Hlt)%find_item_Some.
    unfold find_item in Efind. cbv zeta in Efind.
    destruct (if scan_up k its 0 <? llen its then its !! Z.to_nat (scan_up k its 0) else None)
      as [x|]; [|discriminate].
    destruct (str_eqb k (Key x)); [|discriminate].
    change (isLeaf (mkNode its [] (RootOffset b) false)) with true. cbv iota.
    unfold update at 1, modify at 1. cbv beta iota.
    pose proof (scan_up_range k its 0) as Hr.
    rewrite (writeNode_nocache _ (length (heap b))
               (mkNode (remove_at its (scan_up k its 0)) [] (RootOffset b) false)).
    + reflexivity.
    + assumption.
    + cbn [heap set_heap]. rewrite list_lookup_alter_eq, list_lookup_middle by reflexivity.
      reflexivity.
    + cbn [pageSize set_heap]. rewrite encode_leaf.
      pose proof (leaf_bytes_remove its _ item Hlook) as Hle.
      rewrite Z2Nat.id in Hle by lia. lia.
  - unfold find_item in Efind. cbv zeta in Efind.
    destruct (if scan_up k its 0 <? llen its then its !! Z.to_nat (scan_up k its 0) else None)
      as [x|].
    + destruct (str_eqb k (Key x)); [discriminate|]. reflexivity.
    + reflexivity.
Qed.

Lemma leaf_page_ext b b' its :
  cacheSize b' = cacheSize b → pageSize b' = pageSize b → RootOffset b' = RootOffset b →
  file b' = file b → leaf_page b its → leaf_page b' its.
Proof. unfold leaf_page. intros -> -> -> ->. done. Qed.

(** Writing the header leaves the root page as it is. *)
Lemma leaf_page_header b its hdr :
  leaf_page b its →
  leaf_page (set_file (WriteAt (file b) (padded (pageSize b) hdr) 0) b) its.
Proof.
  intros (Hc & HP & Hroot & Hfile & Hok & Hsorted & Hfit & Hdata).
  unfold leaf_page. cbn [cacheSize pageSize RootOffset file set_file].
  split_and!; try assumption; try lia.
  - rewrite WriteAt_length, padded_length by lia. lia.
  - rewrite WriteAt_0_read_other by (rewrite padded_length; lia). exact Hdata.
Qed.

Lemma remove_at_found its k item :
  find_item k its = Some item →
  its = take (Z.to_nat (scan_up k its 0)) its ++ item :: drop (S (Z.to_nat (scan_up k its 0))) its
  ∧ remove_at its (scan_up k its 0)
    = take (Z.to_nat (scan_up k its 0)) its ++ drop (S (Z.to_nat (scan_up k its 0))) its.
Proof.
  intros (Hk & Hlook & Hlt)%find_item_Some.
  pose proof (scan_up_range k its 0) as Hr.
  destruct (remove_at_spec its _ item Hlook) as [Hsplit Hrem].
  rewrite Z2Nat.id in Hrem by lia. done.
Qed.

(** After the removal the root page holds the remaining items. *)
Lemma leaf_deleted_page b its k item :
  leaf_page b its → find_item k its = Some item →
  leaf_page (leaf_deleted b its k) (remove_at its (scan_up k its 0)).
Proof.
  intros (Hc & HP & Hroot & Hfile & Hok & Hsorted & Hfit & Hdata) Hfind.
  destruct (remove_at_found its k item Hfind) as [Hsplit Hrem].
  pose proof Hfind as (Hk & Hlook & Hlt)%find_item_Some.
  pose proof (scan_up_range k its 0) as Hr.
  pose proof (leaf_bytes_remove its _ item Hlook) as Hle.
  rewrite Z2Nat.id in Hle by lia.
  unfold leaf_page, leaf_deleted. cbv zeta.
  cbn [cacheSize pageSize RootOffset file set_file set_heap].
  split_and!; try assumption; try lia.
  - rewrite WriteAt_length, padded_length by lia. lia.
  - rewrite Hrem. apply Forall_app. split; [by apply Forall_take | by apply Forall_drop].
  - rewrite Hrem. rewrite Hsplit in Hsorted. apply StronglySorted_app_2.
    + intros x1 x2 H1 H2.
      apply (StronglySorted_app_1_elem_of key_lt _ _ x1 x2 Hsorted H1). by right.
    + by apply StronglySorted_app_1_l in Hsorted.
    + by apply StronglySorted_app_1_r, StronglySorted_inv in Hsorted as [? _].
  - rewrite <- (padded_length (pageSize b) (leaf_bytes (remove_at its (scan_up k its 0)))) at 1.
    apply WriteAt_read_same. lia.
Qed.

Lemma leaf_count_small P its :
  llen (leaf_bytes its) < P → P < 2^32 → 0 ≤ llen its < 2^32.
Proof.
  unfold llen. rewrite leaf_bytes_length. intros H1 H2.
  change (2^32) with 4294967296 in *.
  pose proof (items_bytes_length_ge its). lia.
Qed.

(** [Delete] of a key the leaf holds returns ok and leaves a leaf tree
    without the item found. *)
Lemma Delete_leaf_present b its k item fuel :
  leaf_tree b its → find_item k its = Some item →
  ∃ b', Delete (S fuel) k b = (Ok tt, b')
        ∧ leaf_tree b' (remove_at its (scan_up k its 0)).
Proof.
  intros Htree Hfind.
  assert (its ≠ []) as Hne by (intros ->; discriminate).
  pose proof (leaf_nonempty_Length b its Htree Hne) as HL.
  destruct Htree as [Hpage Hlen].
  pose proof (leaf_deleted_page b its k item Hpage Hfind) as Hpage2.
  set (its' := remove_at its (scan_up k its 0)) in *.
  set (b2 := leaf_deleted b its k) in *.
  unfold Delete, mbind, M_bind, gets, id. rewrite HL.
  rewrite (deleteFromNode_leaf b its k fuel Hpage), Hfind. fold b2.
  change (RootOffset b) with (RootOffset b2).
  rewrite (read_root b2 its' Hpage2), deref_new.
  change (isLeaf (mkNode its' [] (RootOffset b2) false)) with true.
  rewrite andb_false_r. unfold mret, M_ret, modify, saveHeader, modify. cbv beta iota.
  eexists. split; [reflexivity|]. split.
  - apply leaf_page_header.
    eapply leaf_page_ext; [..|exact Hpage2]; reflexivity.
  - cbn [Length set_file set_Length set_heap]. subst b2. unfold leaf_deleted. cbv zeta.
    cbn [Length set_file set_Length set_heap]. rewrite Hlen.
    destruct Hpage as (_ & HP & _ & _ & _ & _ & Hfit & _).
    pose proof (leaf_count_small _ _ Hfit (proj2 HP)) as Hsmall.
    change (2^32) with 4294967296 in Hsmall.
    destruct (remove_at_found its k item Hfind) as [Hsplit Hrem].
    assert (llen its = llen its' + 1) as Hl.
    { unfold its', llen. rewrite Hrem. rewrite Hsplit at 1.
      rewrite !length_app. cbn [length]. lia. }
    assert (0 ≤ llen its') by (unfold llen; lia).
    rewrite wrap_int64_small; [lia|]. unfold max_int64.
    change (2^63) with 9223372036854775808. lia.
Qed.

(** [Delete] of a key the leaf does not hold returns the not-found error. *)
Lemma Delete_leaf_absent b its k fuel :
  leaf_tree b its → its ≠ [] → find_item k its = None →
  (Delete (S fuel) k b).1 = Err (Errorf "key not found").
Proof.
  intros Htree Hne Hfind. pose proof (leaf_nonempty_Length b its Htree Hne) as HL.
  destruct Htree as [Hpage _].
  unfold Delete, mbind, M_bind, gets, id. rewrite HL.
  by rewrite (deleteFromNode_leaf b its k fuel Hpage), Hfind.
Qed.

(** On an empty tree [Delete] and [Get] return not-found. *)
Lemma Delete_empty fuel k b :
  Length b = 0 → Delete fuel k b = (Err ErrKeyNotFound, b).
Proof. intros H. unfold Delete, mbind, M_bind, gets. cbn. by rewrite H. Qed.

Lemma Get_empty fuel k b :
  Length b = 0 → Get fuel k b = (Err ErrKeyNotFound, b).
Proof. intros H. unfold Get, mbind, M_bind, gets. cbn. by rewrite H. Qed.

(** The two not-found results of the B-tree: [ports.ErrKeyNotFound] on an
    empty tree and the error ["key not found"] of a leaf miss. *)
Definition not_found {A} (r : result A) : Prop :=
  r = Err ErrKeyNotFound ∨ r = Err (Errorf "key not found").

(** On a leaf tree, the delete of a key it holds returns ok, and then a
    [Get] and a second [Delete] of that key return not-found. *)
Lemma leaf_delete_then_get b its item k fuel :
  leaf_tree b its → item ∈ its → Key item = k →
  ∃ b', Delete (S fuel) k b = (Ok tt, b')
        ∧ not_found (Get (S fuel) k b').1
        ∧ not_found (Delete (S fuel) k b').1.
Proof.
  intros Htree Hin Hk. pose proof Htree as [(_ & _ & _ & _ & _ & Hsorted & _) _].
  pose proof (find_item_in k its item Hsorted Hin Hk) as Hfind.
  destruct (Delete_leaf_present b its k item fuel Htree Hfind) as (b' & Hdel & Htree').
  exists b'. split; [exact Hdel|].
  pose proof (find_item_not_in k _ (removed_not_in k its item Hsorted Hfind)) as Hgone.
  destruct (remove_at its (scan_up k its 0)) as [|x rest] eqn:E.
  - destruct Htree' as [_ Hlen]. change (llen []) with 0 in Hlen.
    rewrite Get_empty, Delete_empty by assumption. split; by left.
  - rewrite (Get_leaf b' _ k fuel Htree'), Hgone by discriminate.
    rewrite (Delete_leaf_absent b' _ k fuel Htree') by (discriminate || assumption).
    split; by right.
Qed.

End BTFacts.

(** ** Delete on both backends *)

(** A B-tree of three keys in one leaf, no cache. *)
Definition three_keys : BT.Btree :=
  let b := BT.NewBtree [] BTFacts.test_config in
  let '(_, b) := BT.Insert 8 "key1" "value1" b in
  let '(_, b) := BT.Insert 8 "key2" "value2" b in
  let '(_, b) := BT.Insert 8 "key3" "value3" b in
  b.

Definition three_items : list BT.Item :=
  [BT.mkItem "key1" "value1"; BT.mkItem "key2" "value2"; BT.mkItem "key3" "value3"].


